(** * lazuli_scrapper: the product-scraping pipeline, embedded and verified

    The development follows the Go sources:
    - the chromedp pipeline ([Start], [worker], [discoverProductLinks],
      [scrapeProductPage], [writeCSV]);
    - the remote-renderer path ([getProductDataFromFile],
      [ProcessJSONAndWriteToCSV]).

    Go strings are byte strings ([string]); slices are lists; the
    [map[string]bool] of the link discoverer is a [gmap string bool];
    the browser driven through chromedp is an abstract, stateful
    [Renderer]; goroutines and channels are an interleaving step function
    on an explicit pool state. *)

From Stdlib Require Import Ascii String.
From stdpp Require Import gmap strings list.

Open Scope string_scope.
Open Scope list_scope.
Open Scope nat_scope.

(** ** Go's [strings] package, as far as the sources use it *)

Module GoStrings.

(** [strings.Split(s, sep)] for a one-byte separator: every segment
    between separators, empty ones included; never the empty list. *)
Fixpoint Split (s : string) (sep : ascii) : list string :=
  match s with
  | EmptyString => [EmptyString]
  | String c s' =>
      if Ascii.eqb c sep then EmptyString :: Split s' sep
      else match Split s' sep with
           | seg :: segs => String c seg :: segs
           | [] => [String c EmptyString]
           end
  end.

(** [strings.TrimLeft(s, cutset)] for a one-byte cutset. *)
Fixpoint TrimLeft (s : string) (cut : ascii) : string :=
  match s with
  | EmptyString => EmptyString
  | String c s' => if Ascii.eqb c cut then TrimLeft s' cut else s
  end.

(** [strings.TrimRight(s, cutset)] for a one-byte cutset. *)
Fixpoint TrimRight (s : string) (cut : ascii) : string :=
  match s with
  | EmptyString => EmptyString
  | String c s' =>
      match TrimRight s' cut with
      | EmptyString => if Ascii.eqb c cut then EmptyString
                       else String c EmptyString
      | t => String c t
      end
  end.

(** [strings.Trim(s, cutset)]: leading and trailing cutset bytes go. *)
Definition Trim (s : string) (cut : ascii) : string :=
  TrimRight (TrimLeft s cut) cut.

(** [strings.HasPrefix(s, prefix)]. *)
Definition HasPrefix (s prefix : string) : bool := String.prefix prefix s.

(** [strings.Contains(s, substr)]. *)
Fixpoint Contains (s substr : string) : bool :=
  String.prefix substr s ||
  match s with
  | EmptyString => false
  | String _ s' => Contains s' substr
  end.

(** [strings.Join(elems, sep)]. *)
Definition Join (elems : list string) (sep : string) : string :=
  String.concat sep elems.

End GoStrings.

Import GoStrings.

(** ** The chromedp pipeline: data *)

(** [type Product struct] of the chromedp scraper. *)
Record Product := mkProduct {
  URL : string;
  Name : string;
  ProductID : string;
  Price : string;
  ImageURL : string;
  Breadcrumb : string;
  DescriptionGeneral : string;
  DescriptionTitle : string;
  DescriptionItemized : string;
  AvailableSizes : string;
  SenseOfSize : string;
  Keywords : string;
  SizeChartJSON : string;
  ReviewsJSON : string;
  OverallRating : string;
  NumberOfReviews : string;
  RecommendedRate : string;
  CoordinatedProductsJSON : string
}.

(** [Product{}], Go's zero value: every field the empty string. *)
Definition zeroProduct : Product :=
  mkProduct "" "" "" "" "" "" "" "" "" "" "" "" "" "" "" "" "" "".

Definition startURL : string := "https://shop.adidas.jp/men/".
Definition numWorkers : nat := 4.
Definition productTarget : nat := 250.

(** ** Identifier derivation

    The first lines of [scrapeProductPage]:
    [urlParts := strings.Split(strings.Trim(url, "/"), "/")] and, when
    [len(urlParts) > 0], [urlParts[len(urlParts)-1]]. *)
Definition productID (url : string) : string :=
  let urlParts := Split (Trim url "/") "/" in
  if (0 <? length urlParts)%nat
  then default "" (urlParts !! (length urlParts - 1))
  else "".

(** *** The specification's reading: last non-empty segment of the path *)








(** The last non-empty [/]-separated segment, [""] when there is none. *)
Definition last_nonempty_segment (path : string) : string :=
  default "" (last (filter (λ seg, seg ≠ "") (Split path "/"))).

(** The non-empty segments of a text split at [/]. *)
Definition segments (s : string) : list string :=
  filter (λ seg, seg ≠ "") (Split s "/").

(** A text of [k] separators [c]. *)
Fixpoint seps (c : ascii) (k : nat) : string :=
  match k with
  | 0 => EmptyString
  | S k' => String c (seps c k')
  end.


(** *** The specification's reading of first-seen order *)

(** Where [x] first occurs in [l]; [length l] when it does not. *)
Fixpoint first_index (x : string) (l : list string) : nat :=
  match l with
  | [] => 0
  | y :: l' => if decide (y = x) then 0 else S (first_index x l')
  end.

(** The links not in [seen], each kept where it is first met. *)
Fixpoint first_seen (seen links : list string) : list string :=
  match links with
  | [] => []
  | x :: l =>
      if decide (x ∈ seen) then first_seen seen l
      else x :: first_seen (seen ++ [x]) l
  end.

(** Field updates of [Product] ([p.Name = v] and the like). *)
Definition set_URL (v : string) (p : Product) : Product :=
  let 'mkProduct _ a2 a3 a4 a5 a6 a7 a8 a9 b1 b2 b3 b4 b5 b6 b7 b8 b9 := p in
  mkProduct v a2 a3 a4 a5 a6 a7 a8 a9 b1 b2 b3 b4 b5 b6 b7 b8 b9.
Definition set_Name (v : string) (p : Product) : Product :=
  let 'mkProduct a1 _ a3 a4 a5 a6 a7 a8 a9 b1 b2 b3 b4 b5 b6 b7 b8 b9 := p in
  mkProduct a1 v a3 a4 a5 a6 a7 a8 a9 b1 b2 b3 b4 b5 b6 b7 b8 b9.
Definition set_ProductID (v : string) (p : Product) : Product :=
  let 'mkProduct a1 a2 _ a4 a5 a6 a7 a8 a9 b1 b2 b3 b4 b5 b6 b7 b8 b9 := p in
  mkProduct a1 a2 v a4 a5 a6 a7 a8 a9 b1 b2 b3 b4 b5 b6 b7 b8 b9.
Definition set_Price (v : string) (p : Product) : Product :=
  let 'mkProduct a1 a2 a3 _ a5 a6 a7 a8 a9 b1 b2 b3 b4 b5 b6 b7 b8 b9 := p in
  mkProduct a1 a2 a3 v a5 a6 a7 a8 a9 b1 b2 b3 b4 b5 b6 b7 b8 b9.
Definition set_ImageURL (v : string) (p : Product) : Product :=
  let 'mkProduct a1 a2 a3 a4 _ a6 a7 a8 a9 b1 b2 b3 b4 b5 b6 b7 b8 b9 := p in
  mkProduct a1 a2 a3 a4 v a6 a7 a8 a9 b1 b2 b3 b4 b5 b6 b7 b8 b9.
Definition set_Breadcrumb (v : string) (p : Product) : Product :=
  let 'mkProduct a1 a2 a3 a4 a5 _ a7 a8 a9 b1 b2 b3 b4 b5 b6 b7 b8 b9 := p in
  mkProduct a1 a2 a3 a4 a5 v a7 a8 a9 b1 b2 b3 b4 b5 b6 b7 b8 b9.
Definition set_DescriptionGeneral (v : string) (p : Product) : Product :=
  let 'mkProduct a1 a2 a3 a4 a5 a6 _ a8 a9 b1 b2 b3 b4 b5 b6 b7 b8 b9 := p in
  mkProduct a1 a2 a3 a4 a5 a6 v a8 a9 b1 b2 b3 b4 b5 b6 b7 b8 b9.
Definition set_DescriptionTitle (v : string) (p : Product) : Product :=
  let 'mkProduct a1 a2 a3 a4 a5 a6 a7 _ a9 b1 b2 b3 b4 b5 b6 b7 b8 b9 := p in
  mkProduct a1 a2 a3 a4 a5 a6 a7 v a9 b1 b2 b3 b4 b5 b6 b7 b8 b9.
Definition set_DescriptionItemized (v : string) (p : Product) : Product :=
  let 'mkProduct a1 a2 a3 a4 a5 a6 a7 a8 _ b1 b2 b3 b4 b5 b6 b7 b8 b9 := p in
  mkProduct a1 a2 a3 a4 a5 a6 a7 a8 v b1 b2 b3 b4 b5 b6 b7 b8 b9.
Definition set_AvailableSizes (v : string) (p : Product) : Product :=
  let 'mkProduct a1 a2 a3 a4 a5 a6 a7 a8 a9 _ b2 b3 b4 b5 b6 b7 b8 b9 := p in
  mkProduct a1 a2 a3 a4 a5 a6 a7 a8 a9 v b2 b3 b4 b5 b6 b7 b8 b9.
Definition set_SenseOfSize (v : string) (p : Product) : Product :=
  let 'mkProduct a1 a2 a3 a4 a5 a6 a7 a8 a9 b1 _ b3 b4 b5 b6 b7 b8 b9 := p in
  mkProduct a1 a2 a3 a4 a5 a6 a7 a8 a9 b1 v b3 b4 b5 b6 b7 b8 b9.
Definition set_Keywords (v : string) (p : Product) : Product :=
  let 'mkProduct a1 a2 a3 a4 a5 a6 a7 a8 a9 b1 b2 _ b4 b5 b6 b7 b8 b9 := p in
  mkProduct a1 a2 a3 a4 a5 a6 a7 a8 a9 b1 b2 v b4 b5 b6 b7 b8 b9.
Definition set_SizeChartJSON (v : string) (p : Product) : Product :=
  let 'mkProduct a1 a2 a3 a4 a5 a6 a7 a8 a9 b1 b2 b3 _ b5 b6 b7 b8 b9 := p in
  mkProduct a1 a2 a3 a4 a5 a6 a7 a8 a9 b1 b2 b3 v b5 b6 b7 b8 b9.
Definition set_ReviewsJSON (v : string) (p : Product) : Product :=
  let 'mkProduct a1 a2 a3 a4 a5 a6 a7 a8 a9 b1 b2 b3 b4 _ b6 b7 b8 b9 := p in
  mkProduct a1 a2 a3 a4 a5 a6 a7 a8 a9 b1 b2 b3 b4 v b6 b7 b8 b9.
Definition set_OverallRating (v : string) (p : Product) : Product :=
  let 'mkProduct a1 a2 a3 a4 a5 a6 a7 a8 a9 b1 b2 b3 b4 b5 _ b7 b8 b9 := p in
  mkProduct a1 a2 a3 a4 a5 a6 a7 a8 a9 b1 b2 b3 b4 b5 v b7 b8 b9.
Definition set_NumberOfReviews (v : string) (p : Product) : Product :=
  let 'mkProduct a1 a2 a3 a4 a5 a6 a7 a8 a9 b1 b2 b3 b4 b5 b6 _ b8 b9 := p in
  mkProduct a1 a2 a3 a4 a5 a6 a7 a8 a9 b1 b2 b3 b4 b5 b6 v b8 b9.
Definition set_RecommendedRate (v : string) (p : Product) : Product :=
  let 'mkProduct a1 a2 a3 a4 a5 a6 a7 a8 a9 b1 b2 b3 b4 b5 b6 b7 _ b9 := p in
  mkProduct a1 a2 a3 a4 a5 a6 a7 a8 a9 b1 b2 b3 b4 b5 b6 b7 v b9.
Definition set_CoordinatedProductsJSON (v : string) (p : Product) : Product :=
  let 'mkProduct a1 a2 a3 a4 a5 a6 a7 a8 a9 b1 b2 b3 b4 b5 b6 b7 b8 _ := p in
  mkProduct a1 a2 a3 a4 a5 a6 a7 a8 a9 b1 b2 b3 b4 b5 b6 b7 b8 v.

(** ** The page renderer

    chromedp is a collaborator outside the repository: the sources only
    build action lists and run them.  An action is indexed by the Go type
    of the value it hands back through its pointer argument. *)

(** Go's [error], carried as its message. *)
Definition error : Type := string.

Inductive action : Type → Type :=
| Navigate (url : string) : action unit
| WaitReady (sel : string) : action unit
| WaitVisible (sel : string) : action unit
| ClickVisible (sel : string) : action unit
| Text (sel : string) : action string
| AttributeValue (sel name : string) : action string
| Evaluate (expr : string) : action string
| EvaluateStrings (expr : string) : action (list string)
| EvaluateDiscard (expr : string) : action unit.

(** A renderer session: a stateful browser context.  [exec] runs one
    action against it, under the deadline of the context it is given;
    [elapse] lets wall-clock seconds pass ([time.Sleep]); [NewContext] is
    [chromedp.NewContext(parent)], the fresh context of a worker. *)
Class Renderer := {
  session : Type;
  exec : ∀ {T : Type}, session → action T → session * (error + T);
  elapse : nat → session → session;
  NewContext : session → session
}.

(** One entry of the variadic action list of [chromedp.Run]: an action
    with the assignment through its pointer, or a [chromedp.ActionFunc]. *)
Inductive task `{Renderer} (L : Type) : Type :=
| Do {T : Type} (a : action T) (store : T → L → L)
| ActionFunc (f : session → session * option error).

Arguments Do {_ L T} a store.
Arguments ActionFunc {_ L} f.

Section Pipeline.
Context `{R : Renderer}.

(** [chromedp.Run(ctx, actions...)]: the actions in order, stopping at
    the first error, which it returns. *)
Fixpoint Run {L : Type} (s : session) (tasks : list (task L)) (l : L)
  : session * L * option error :=
  match tasks with
  | [] => (s, l, None)
  | Do a store :: rest =>
      match exec s a with
      | (s', inl e) => (s', l, Some e)
      | (s', inr v) => Run s' rest (store v l)
      end
  | ActionFunc f :: rest =>
      match f s with
      | (s', Some e) => (s', l, Some e)
      | (s', None) => Run s' rest l
      end
  end.

(** A task keeps a property of the variables it writes. *)
Definition task_preserves {L : Type} (P : L → Prop) (t : task L) : Prop :=
  match t with
  | Do a store => ∀ v l, P l → P (store v l)
  | ActionFunc _ => True
  end.

(** *** [scrapeProductPage] *)

(** The variables the action list writes through pointers. *)
Record scrapeVars := mkScrapeVars {
  p : Product;
  sizeChartRaw : string;
  reviewsRaw : string;
  coordinatedRaw : string
}.

Definition on_p (f : string → Product → Product) (v : string)
    (l : scrapeVars) : scrapeVars :=
  mkScrapeVars (f v (p l)) (sizeChartRaw l) (reviewsRaw l) (coordinatedRaw l).
Definition set_sizeChartRaw (v : string) (l : scrapeVars) : scrapeVars :=
  mkScrapeVars (p l) v (reviewsRaw l) (coordinatedRaw l).
Definition set_reviewsRaw (v : string) (l : scrapeVars) : scrapeVars :=
  mkScrapeVars (p l) (sizeChartRaw l) v (coordinatedRaw l).
Definition set_coordinatedRaw (v : string) (l : scrapeVars) : scrapeVars :=
  mkScrapeVars (p l) (sizeChartRaw l) (reviewsRaw l) v.
Definition skip (_ : unit) (l : scrapeVars) : scrapeVars := l.

(** The selector [[data-test-id=...]], whose value the source writes
    between double quotes (byte 34). *)
Definition testID (name : string) : string :=
  "[data-test-id=" +:+ String (ascii_of_nat 34) name
  +:+ String (ascii_of_nat 34) "]".

Definition sizeChartScript : string :=
  "(() => { const table = document.querySelector('.p-size-chart__table table'); if (!table) return null; const headers = Array.from(table.querySelectorAll('thead th')).map(th => th.innerText.trim()); const rows = Array.from(table.querySelectorAll('tbody tr')).map(tr => { const rowData = {}; Array.from(tr.querySelectorAll('td')).forEach((td, i) => { const header = headers[i]; if (header) rowData[header] = td.innerText.trim(); }); return rowData; }); return JSON.stringify(rows); })();".
Definition reviewsScript : string :=
  "(() => { const reviews = []; document.querySelectorAll('.BVRRDisplayContentReview').forEach(el => { reviews.push({ rating: el.querySelector('.BVRRRatingNumber')?.innerText.trim(), title: el.querySelector('.BVRRValueTitle')?.innerText.trim(), date: el.querySelector('.BVRRValueDate')?.innerText.trim(), reviewer: el.querySelector('.BVRRValueNickname')?.innerText.trim(), description: el.querySelector('.BVRRReviewTextContainer')?.innerText.trim() }); }); return JSON.stringify(reviews); })();".
Definition coordinatedProductsScript : string :=
  "(() => { const items = []; document.querySelectorAll('.p-coordinated-items__list-item a').forEach(el => { items.push({ name: el.querySelector('.p-coordinated-items__name')?.innerText.trim(), price: el.querySelector('.c-price__value')?.innerText.trim(), url: el.href, imageUrl: el.querySelector('img')?.src }); }); return JSON.stringify(items); })();".
Definition sizesScript : string :=
  "Array.from(document.querySelectorAll('.p-size-selector__item-button')).map(btn => btn.innerText.trim()).join(', ')".
Definition keywordsScript : string :=
  "Array.from(document.querySelectorAll('.p-tags__list-item-link')).map(a => a.innerText.trim()).join(', ')".

(** The argument list of the [chromedp.Run] call, in source order. *)
Definition scrapeActions (url : string) : list (task scrapeVars) :=
  [ Do (Navigate url) skip;
    Do (WaitReady "h1.p-article__name") skip;
    Do (Text "h1.p-article__name") (on_p set_Name);
    Do (Text ".p-article__breadcrumb") (on_p set_Breadcrumb);
    Do (Text ".p-price-group__price-item .c-price__value") (on_p set_Price);
    Do (Text ".c-description__title") (on_p set_DescriptionTitle);
    Do (Text ".c-description__text") (on_p set_DescriptionGeneral);
    Do (Text (testID "pdp-description-itemized"))
       (on_p set_DescriptionItemized);
    Do (Text (testID "sense-of-size-info")) (on_p set_SenseOfSize);
    Do (Text (testID "reviews-overall-rating"))
       (on_p set_OverallRating);
    Do (Text (testID "reviews-number-of-reviews"))
       (on_p set_NumberOfReviews);
    Do (Text (testID "reviews-recommended-rate"))
       (on_p set_RecommendedRate);
    Do (AttributeValue ".c-article-image__img" "src") (on_p set_ImageURL);
    Do (Evaluate sizesScript) (on_p set_AvailableSizes);
    Do (Evaluate keywordsScript) (on_p set_Keywords);
    Do (Evaluate coordinatedProductsScript) set_coordinatedRaw;
    Do (Evaluate reviewsScript) set_reviewsRaw;
    Do (ClickVisible ".p-size-chart__link") skip;
    Do (WaitVisible ".p-size-chart__table") skip;
    Do (Evaluate sizeChartScript) set_sizeChartRaw ].

(** The variables before the run: [var p Product] with [p.URL] and
    [p.ProductID] assigned, the three raw strings empty. *)
Definition initialVars (url : string) : scrapeVars :=
  mkScrapeVars (set_ProductID (productID url) (set_URL url zeroProduct))
    "" "" "".

(** [scrapeProductPage(ctx, url)]: the pair it returns, next to the
    session it leaves behind. *)
Definition scrapeProductPage (s : session) (url : string)
  : session * (Product * option error) :=
  match Run s (scrapeActions url) (initialVars url) with
  | (s', _, Some err) =>
      (s', (zeroProduct, Some ("browser actions failed: " +:+ err)))
  | (s', l, None) =>
      (s', (set_CoordinatedProductsJSON (coordinatedRaw l)
              (set_ReviewsJSON (reviewsRaw l)
                 (set_SizeChartJSON (sizeChartRaw l) (p l))),
            None))
  end.

(** *** [discoverProductLinks] *)

Definition scrollScript : string :=
  "window.scrollTo(0, document.documentElement.scrollHeight);".
Definition linksScript : string :=
  "Array.from(document.querySelectorAll('a.c-product-card__link')).map(a => a.href)".

(** The body of the [chromedp.ActionFunc]: [for i := 0; i < scrolls; i++],
    with [n] rounds still to go; each round scrolls, then sleeps 2s. *)
Fixpoint scrollLoop (n : nat) (s : session) : session * option error :=
  match n with
  | 0 => (s, None)
  | S n' =>
      match exec s (EvaluateDiscard scrollScript) with
      | (s', inl err) => (s', Some err)
      | (s', inr _) => scrollLoop n' (elapse 2 s')
      end
  end.

(** The loop [for _, link := range links] over the map [uniqueLinks]:
    reading a missing key of a [map[string]bool] gives [false]. *)
Fixpoint dedupLoop (links : list string) (uniqueLinks : gmap string bool)
    (result : list string) : list string :=
  match links with
  | [] => result
  | link :: rest =>
      if negb (default false (uniqueLinks !! link))
      then dedupLoop rest (<[link := true]> uniqueLinks) (result ++ [link])
      else dedupLoop rest uniqueLinks result
  end.

(** The argument list of the [chromedp.Run] call of the discoverer; the
    last action fills [links]. *)
Definition discoverActions (url : string) : list (task (list string)) :=
  let scrolls := 5 in
  [ Do (Navigate url) (λ _ links, links);
    ActionFunc (scrollLoop scrolls);
    Do (EvaluateStrings linksScript) (λ v _, v) ].

(** [discoverProductLinks(ctx, url)]: [(nil, err)] when the run fails. *)
Definition discoverProductLinks (s : session) (url : string)
  : session * (list string * option error) :=
  match Run s (discoverActions url) [] with
  | (s', _, Some err) => (s', ([], Some err))
  | (s', links, None) => (s', (dedupLoop links ∅ [], None))
  end.

(** *** The worker pool of [Start]

    Goroutines are threads of an interleaving semantics: [step] lets one
    thread take its next atomic step, and is [None] where Go blocks the
    thread (or the thread has returned).  Channels are buffered FIFO
    queues with the capacity given to [make]. *)

(** Where [Start] stands after discovery. *)
Inductive mainpc :=
| MSpawn (i : nat)
| MFill (i : nat) (rest : list string)
| MCloseJobs
| MWait
| MCloseResults
| MDrain (finalProducts : list Product)
| MDone (finalProducts : list Product).

(** Where a [worker] goroutine stands. *)
Inductive wpc :=
| WRecv
| WScrape (url : string)
| WSend (product : Product)
| WReturn
| WDone.

Record workerState := mkWorker {
  wid : nat;
  at_pc : wpc;
  taskCtx : session
}.

(** The lines the workers print with [log.Printf]. *)
Inductive event :=
| LogScraping (id : nat) (url : string)
| LogError (id : nat) (url : string) (err : error)
| LogSuccess (id : nat) (url name : string).

(** The variables of [Start] and the goroutines it started. *)
Record pool := mkPool {
  ctx : session;
  productLinks : list string;
  main : mainpc;
  jobs : list string;
  jobsClosed : bool;
  results : list Product;
  resultsClosed : bool;
  wg : nat;
  workers : list workerState;
  log : list event;
  panicked : option string
}.

Inductive thread := TMain | TWorker (k : nat).

(** [Start] right after [len(productLinks) == 0] was ruled out. *)
Definition pool_init (c : session) (links : list string) : pool :=
  mkPool c links (MSpawn 1) [] false [] false 0 [] [] None.

(** The next step of [Start] itself; [W] is the worker count. *)
Definition Start_step (W : nat) (st : pool) : option pool :=
  let 'mkPool c links pc js jc rs rc n ws lg pn := st in
  match pc with
  | MSpawn i =>
      if (i <=? W)%nat
      then Some (mkPool c links (MSpawn (S i)) js jc rs rc (S n)
                   (ws ++ [mkWorker i WRecv (NewContext c)]) lg pn)
      else Some (mkPool c links (MFill 0 links) js jc rs rc n ws lg pn)
  | MFill i [] => Some (mkPool c links MCloseJobs js jc rs rc n ws lg pn)
  | MFill i (link :: rest) =>
      if (productTarget <=? i)%nat
      then Some (mkPool c links MCloseJobs js jc rs rc n ws lg pn)
      else if jc
      then Some (mkPool c links pc js jc rs rc n ws lg
                   (Some "send on closed channel"))
      else if (length js <? length links)%nat
      then Some (mkPool c links (MFill (S i) rest) (js ++ [link]) jc rs rc
                   n ws lg pn)
      else None
  | MCloseJobs =>
      if jc
      then Some (mkPool c links pc js jc rs rc n ws lg
                   (Some "close of closed channel"))
      else Some (mkPool c links MWait js true rs rc n ws lg pn)
  | MWait =>
      if (n =? 0)%nat
      then Some (mkPool c links MCloseResults js jc rs rc n ws lg pn)
      else None
  | MCloseResults =>
      if rc
      then Some (mkPool c links pc js jc rs rc n ws lg
                   (Some "close of closed channel"))
      else Some (mkPool c links (MDrain []) js jc rs true n ws lg pn)
  | MDrain finalProducts =>
      match rs with
      | product :: rs' =>
          Some (mkPool c links (MDrain (finalProducts ++ [product])) js jc
                  rs' rc n ws lg pn)
      | [] =>
          if rc
          then Some (mkPool c links (MDone finalProducts) js jc rs rc n ws
                       lg pn)
          else None
      end
  | MDone _ => None
  end.

(** The next step of the worker at index [k] of the goroutine list. *)
Definition worker_step (k : nat) (st : pool) : option pool :=
  let 'mkPool c links pc js jc rs rc n ws lg pn := st in
  match ws !! k with
  | None => None
  | Some (mkWorker id wpc0 tc) =>
      match wpc0 with
      | WRecv =>
          match js with
          | url :: js' =>
              Some (mkPool c links pc js' jc rs rc n
                      (<[k := mkWorker id (WScrape url) tc]> ws)
                      (lg ++ [LogScraping id url]) pn)
          | [] =>
              if jc
              then Some (mkPool c links pc js jc rs rc n
                           (<[k := mkWorker id WReturn tc]> ws) lg pn)
              else None
          end
      | WScrape url =>
          match scrapeProductPage tc url with
          | (tc', (_, Some err)) =>
              Some (mkPool c links pc js jc rs rc n
                      (<[k := mkWorker id WRecv tc']> ws)
                      (lg ++ [LogError id url err]) pn)
          | (tc', (product, None)) =>
              Some (mkPool c links pc js jc rs rc n
                      (<[k := mkWorker id (WSend product) tc']> ws)
                      (lg ++ [LogSuccess id url (Name product)]) pn)
          end
      | WSend product =>
          if rc
          then Some (mkPool c links pc js jc rs rc n ws lg
                       (Some "send on closed channel"))
          else if (length rs <? length links)%nat
          then Some (mkPool c links pc js jc (rs ++ [product]) rc n
                       (<[k := mkWorker id WRecv tc]> ws) lg pn)
          else None
      | WReturn =>
          match n with
          | 0 => Some (mkPool c links pc js jc rs rc n ws lg
                         (Some "sync: negative WaitGroup counter"))
          | S n' => Some (mkPool c links pc js jc rs rc n'
                            (<[k := mkWorker id WDone tc]> ws) lg pn)
          end
      | WDone => None
      end
  end.

(** One step of the scheduled thread; a panic stops the program. *)
Definition step (W : nat) (t : thread) (st : pool) : option pool :=
  match panicked st with
  | Some _ => None
  | None =>
      match t with
      | TMain => Start_step W st
      | TWorker k => worker_step k st
      end
  end.

(** A schedule run from [st]: every scheduled thread must be able to step. *)
Fixpoint run (W : nat) (sched : list thread) (st : pool) : option pool :=
  match sched with
  | [] => Some st
  | t :: sched' =>
      match step W t st with
      | Some st' => run W sched' st'
      | None => None
      end
  end.

(** What the log says of the jobs. *)
Definition finished (lg : list event) : list string :=
  omap (λ e, match e with
             | LogError _ url _ | LogSuccess _ url _ => Some url
             | LogScraping _ _ => None
             end) lg.
Definition failed (lg : list event) : list string :=
  omap (λ e, match e with LogError _ url _ => Some url | _ => None end) lg.
Definition succeeded (lg : list event) : list string :=
  omap (λ e, match e with LogSuccess _ url _ => Some url | _ => None end) lg.

(** The jobs [Start] has put on the [jobs] channel so far. *)
Definition enqueued (st : pool) : list string :=
  match main st with
  | MSpawn _ => []
  | MFill i _ => take i (productLinks st)
  | _ => take productTarget (productLinks st)
  end.

Definition is_done (st : pool) : Prop :=
  match main st with MDone _ => True | _ => False end.

(** [finalProducts], once the drain loop has something. *)
Definition finalProducts (st : pool) : list Product :=
  match main st with
  | MDrain fp | MDone fp => fp
  | _ => []
  end.

(** *** What holds of every reachable pool state *)

(** The job a worker is scraping, the record it is about to send, and
    whether it has yet to call [wg.Done]. *)
Definition scraping (w : workerState) : option string :=
  match at_pc w with WScrape url => Some url | _ => None end.
Definition sending (w : workerState) : option Product :=
  match at_pc w with WSend product => Some product | _ => None end.
Definition running (w : workerState) : option unit :=
  match at_pc w with WDone => None | _ => Some () end.

(** What [Start] has established at each of its program points. *)
Definition phase_inv (W : nat) (st : pool) : Prop :=
  match main st with
  | MSpawn i =>
      1 ≤ i ≤ S W ∧ length (workers st) = i - 1
      ∧ jobs st = [] ∧ jobsClosed st = false ∧ resultsClosed st = false
      ∧ Forall (λ w, at_pc w = WRecv) (workers st)
      ∧ log st = [] ∧ results st = []
  | MFill i rest =>
      rest = drop i (productLinks st) ∧ i ≤ productTarget
      ∧ i ≤ length (productLinks st) ∧ length (workers st) = W
      ∧ jobsClosed st = false ∧ resultsClosed st = false
  | MCloseJobs =>
      length (workers st) = W
      ∧ jobsClosed st = false ∧ resultsClosed st = false
  | MWait =>
      length (workers st) = W
      ∧ jobsClosed st = true ∧ resultsClosed st = false
  | MCloseResults =>
      length (workers st) = W
      ∧ jobsClosed st = true ∧ resultsClosed st = false ∧ wg st = 0
  | MDrain _ =>
      length (workers st) = W
      ∧ jobsClosed st = true ∧ resultsClosed st = true ∧ wg st = 0
  | MDone _ =>
      length (workers st) = W
      ∧ jobsClosed st = true ∧ resultsClosed st = true ∧ wg st = 0
      ∧ results st = []
  end.

Record pool_inv (W : nat) (st : pool) : Prop := mkPoolInv {
  inv_panicked : panicked st = None;
  inv_wg : wg st = length (omap running (workers st));
  inv_jobs :
    enqueued st
    ≡ₚ jobs st ++ omap scraping (workers st) ++ finished (log st);
  inv_results :
    URL <$> (finalProducts st ++ results st ++ omap sending (workers st))
    ≡ₚ succeeded (log st);
  inv_returned :
    Forall (λ w, at_pc w = WReturn ∨ at_pc w = WDone →
                 jobs st = [] ∧ jobsClosed st = true) (workers st);
  inv_phase : phase_inv W st
}.

(** A bound on the steps the pool can still take. *)
Definition wweight (w : workerState) : nat :=
  match at_pc w with
  | WDone => 0
  | WReturn => 1
  | WRecv => 2
  | WSend _ => 4
  | WScrape _ => 5
  end.

Definition mweight (W : nat) (st : pool) : nat :=
  match main st with
  | MDone _ => 0
  | MDrain _ => 1
  | MCloseResults => 2
  | MWait => 3
  | MCloseJobs => 4
  | MFill _ rest => 5 + 5 * length rest
  | MSpawn i => 6 + 5 * length (productLinks st) + 3 * (S W - i)
  end.

Definition measure (W : nat) (st : pool) : nat :=
  mweight W st + 4 * length (jobs st) + length (results st)
  + sum_list (wweight <$> workers st).

End Pipeline.

(** *** [writeCSV]

    [encoding/csv] and the file system are collaborators: the model stops
    at the records [writeCSV] hands to [writer.Write], header first, and
    leaves out the [log.Fatalf] exits (directory, file, header).  A
    failing write of a data row is logged and the loop goes on, so every
    row is handed over. *)

Definition csvHeaders : list string :=
  [ "URL"; "ProductID"; "Name"; "Price"; "ImageURL"; "Breadcrumb";
    "DescriptionGeneral"; "DescriptionTitle"; "DescriptionItemized";
    "AvailableSizes"; "SenseOfSize"; "Keywords";
    "SizeChartJSON"; "ReviewsJSON"; "OverallRating"; "NumberOfReviews";
    "RecommendedRate"; "CoordinatedProductsJSON" ].

Definition csvRow (p : Product) : list string :=
  [ URL p; ProductID p; Name p; Price p; ImageURL p; Breadcrumb p;
    DescriptionGeneral p; DescriptionTitle p; DescriptionItemized p;
    AvailableSizes p; SenseOfSize p; Keywords p;
    SizeChartJSON p; ReviewsJSON p; OverallRating p; NumberOfReviews p;
    RecommendedRate p; CoordinatedProductsJSON p ].

Definition writeCSV (products : list Product) : list (list string) :=
  csvHeaders :: (csvRow <$> products).

(** Reading a row back: the cell under the column called [name]. *)
Fixpoint column (name : string) (header row : list string) : option string :=
  match header, row with
  | h :: header', cell :: row' =>
      if String.eqb h name then Some cell else column name header' row'
  | _, _ => None
  end.


(** ** The remote-renderer path (package [scraper]) *)

Module ZenRows.

Record XHRResponse := mkXHR {
  URL : string;
  Body : string
}.

Record ZenRowsOverallResponse := mkCapture {
  HTML : string;
  XHR : list XHRResponse
}.

Record Breadcrumb := mkBreadcrumb {
  Text : string;
  Link : string;
  Type_ : string
}.

(** [ProductDetails], with [Pricing.CurrentPrice] inlined; [F] stands for
    Go's [float64]. *)
Record ProductDetails (F : Type) := mkDetails {
  ArticleNumber : string;
  Name : string;
  Category : string;
  PLink : string;
  ImageLink : string;
  SubTitle : string;
  Sizes : list string;
  Sport : string;
  Surface : list string;
  Brand : string;
  CurrentPrice : F
}.

Arguments mkDetails {F}.
Arguments ArticleNumber {F}.
Arguments Name {F}.
Arguments Category {F}.
Arguments PLink {F}.
Arguments ImageLink {F}.
Arguments SubTitle {F}.
Arguments Sizes {F}.
Arguments Sport {F}.
Arguments Surface {F}.
Arguments Brand {F}.
Arguments CurrentPrice {F}.

(** Why [getProductDataFromFile] gave up. *)
Inductive fileError :=
| ErrOpen (cause : error)
| ErrRead (cause : error)
| ErrUnmarshalFile (cause : error)
| ErrNoProductData.

(** What the path takes from outside the repository: the file system,
    [encoding/json] at the two types it is used at, and [fmt.Sprintf]
    with the verb [%.2f]. *)
Class Host := {
  float64 : Type;
  ReadFile : string → fileError + string;
  UnmarshalCapture : string → error + ZenRowsOverallResponse;
  UnmarshalRecommendations :
    string → error + (list (ProductDetails float64) * list Breadcrumb);
  Sprintf_2f : float64 → string;
  MkdirAll : string → option error;
  Create : string → option error
}.

Section Remote.
Context `{H : Host}.

(** The loop [for _, xhrItem := range zenRowsResp.XHR]: [Some] at the
    [return] inside it, [None] when the range runs out. *)
Fixpoint scanXHR (xhr : list XHRResponse)
  : option (list (ProductDetails float64) * list Breadcrumb) :=
  match xhr with
  | [] => None
  | xhrItem :: rest =>
      if Contains (URL xhrItem) "recs/api/products"
      then match UnmarshalRecommendations (Body xhrItem) with
           | inr recs => Some recs
           | inl _ => scanXHR rest
           end
      else scanXHR rest
  end.

(** An intercepted exchange the scan stops at: its URL names the data
    endpoint and its body parses. *)
Definition usable (x : XHRResponse) : Prop :=
  Contains (URL x) "recs/api/products" = true
  ∧ ∃ recs, UnmarshalRecommendations (Body x) = inr recs.

(** [getProductDataFromFile(filename)]. *)
Definition getProductDataFromFile (filename : string)
  : list (ProductDetails float64) * list Breadcrumb * option fileError :=
  match ReadFile filename with
  | inl err => ([], [], Some err)
  | inr rawBody =>
      match UnmarshalCapture rawBody with
      | inl err => ([], [], Some (ErrUnmarshalFile err))
      | inr zenRowsResp =>
          match scanXHR (XHR zenRowsResp) with
          | Some (allProducts, breadcrumbs) =>
              (allProducts, breadcrumbs, None)
          | None => ([], [], Some ErrNoProductData)
          end
      end
  end.

Definition header : list string :=
  [ "ID"; "URL"; "ProductName"; "Category"; "Price"; "ImageURL";
    "AvailableSizes"; "SizeDetails"; "Description"; "Keywords";
    "Breadcrumbs" ].

Definition orNA (s : string) : string :=
  if String.eqb s "" then "N/A" else s.

(** [breadcrumbsString]: the texts joined by [" > "]. *)
Definition breadcrumbsString (breadcrumbs : list Breadcrumb) : string :=
  if (0 <? length breadcrumbs)%nat
  then Join (Text <$> breadcrumbs) " > "
  else "".

(** The body of [for _, product := range products], up to the [row]. *)
Definition productRow (bc : string) (product : ProductDetails float64)
  : list string :=
  let id := orNA (ArticleNumber product) in
  let fullURL :=
    if negb (HasPrefix (PLink product) "http")
    then "https://www.adidas.jp" +:+ PLink product
    else PLink product in
  let productName := orNA (Name product) in
  let category := orNA (Category product) in
  let price := Sprintf_2f (CurrentPrice product) in
  let imageURL := orNA (ImageLink product) in
  let availableSizes := orNA (Join (Sizes product) ", ") in
  let description := orNA (SubTitle product) in
  let keywords :=
    (if String.eqb (Sport product) "" then [] else [Sport product])
    ++ (if (0 <? length (Surface product))%nat then Surface product else [])
    ++ (if String.eqb (Brand product) "" then [] else [Brand product])
    ++ (if String.eqb (Category product) "" then []
        else [Category product]) in
  let keywordsString := orNA (Join keywords ", ") in
  [ id; fullURL; productName; category; price; imageURL;
    availableSizes; availableSizes; description; keywordsString; bc ].

(** Why [ProcessJSONAndWriteToCSV] gave up. *)
Inductive processError :=
| ErrGetProductData (cause : fileError)
| ErrMkdir (cause : error)
| ErrCreate (cause : error).

(** [ProcessJSONAndWriteToCSV(jsonFileName)]: the records handed to the
    CSV writer ([None] when no file is written) and the error returned.
    The writer itself is taken to accept the header. *)
Definition ProcessJSONAndWriteToCSV (jsonFileName : string)
  : option (list (list string)) * option processError :=
  match getProductDataFromFile jsonFileName with
  | (_, _, Some err) => (None, Some (ErrGetProductData err))
  | (products, breadcrumbs, None) =>
      if (length products =? 0)%nat then (None, None)
      else match MkdirAll "csv" with
           | Some err => (None, Some (ErrMkdir err))
           | None =>
               match Create "csv/products.csv" with
               | Some err => (None, Some (ErrCreate err))
               | None =>
                   (Some (header ::
                          (productRow (breadcrumbsString breadcrumbs)
                             <$> products)),
                    None)
               end
           end
  end.

End Remote.

End ZenRows.

(** ** Concrete collaborators, for running the model on examples *)

(** A scripted browser: it remembers the page it is on and counts the
    actions it ran.  Pages listed in [notReady] never show their title;
    pages in [noChart] have no size-chart link; the listing page shows
    [anchors]. *)
Record toyPage := mkToyPage {
  current : string;
  executed : nat
}.

Definition toy_exec (notReady noChart anchors : list string) {T : Type}
    (s : toyPage) (a : action T) : toyPage * (error + T) :=
  let s' := mkToyPage (match a with Navigate u => u | _ => current s end)
                      (S (executed s)) in
  match a in action T0 return toyPage * (error + T0) with
  | Navigate _ => (s', inr tt)
  | WaitReady _ =>
      if bool_decide (current s ∈ notReady)
      then (s', inl "context deadline exceeded") else (s', inr tt)
  | WaitVisible _ => (s', inr tt)
  | ClickVisible _ =>
      if bool_decide (current s ∈ noChart)
      then (s', inl "context deadline exceeded") else (s', inr tt)
  | Text sel => (s', inr (sel +:+ " @ " +:+ current s))
  | AttributeValue sel name => (s', inr (name +:+ " @ " +:+ current s))
  | Evaluate _ => (s', inr "[]")
  | EvaluateStrings _ => (s', inr anchors)
  | EvaluateDiscard _ => (s', inr tt)
  end.

Definition toyRenderer (notReady noChart anchors : list string) : Renderer :=
  {| session := toyPage;
     exec := @toy_exec notReady noChart anchors;
     elapse := λ _ s, s;
     NewContext := λ _, mkToyPage "" 0 |}.

(** A scripted host for the remote path: one capture file whose second
    and third intercepted exchanges come from the data endpoint, the
    second with a body that does not parse. *)
Definition toyDetails : ZenRows.ProductDetails nat :=
  ZenRows.mkDetails "IE3437" "Samba OG" "Originals" "/products/IE3437/"
    "https://img/IE3437.jpg" "Shoes" ["26.0"; "26.5"] "Lifestyle" []
    "adidas" 154.

Definition toyHost : ZenRows.Host :=
  {| ZenRows.float64 := nat;
     ZenRows.ReadFile := λ f,
       if String.eqb f "sample.json" then inr "capture"
       else inl (ZenRows.ErrOpen "no such file or directory");
     ZenRows.UnmarshalCapture := λ raw,
       if String.eqb raw "capture"
       then inr (ZenRows.mkCapture "<html/>"
                   [ ZenRows.mkXHR "https://shop.adidas.jp/f/v1/pub/ping" "{}";
                     ZenRows.mkXHR "https://x/recs/api/products?n=1" "<!doctype";
                     ZenRows.mkXHR "https://x/recs/api/products?n=2" "recs" ])
       else inl "unexpected end of JSON input";
     ZenRows.UnmarshalRecommendations := λ body,
       if String.eqb body "recs"
       then inr ([toyDetails], [ZenRows.mkBreadcrumb "Men" "/men/" "link"])
       else inl "invalid character";
     ZenRows.Sprintf_2f := λ _, "154.00";
     ZenRows.MkdirAll := λ _, None;
     ZenRows.Create := λ _, None |}.

(** [n] distinct product URLs: [.../products/i/], [.../products/ii/] and
    so on, the number written in strokes. *)
Fixpoint numeral (n : nat) : string :=
  match n with
  | 0 => ""
  | S n' => String "i" (numeral n')
  end.

Definition sampleLinks (n : nat) : list string :=
  (λ k, "https://shop.adidas.jp/products/" +:+ numeral (S k) +:+ "/")
    <$> seq 0 n.

(** A run of two workers over two links: spawn, fill, close; each worker
    takes one job; both return; [Start] waits, closes and drains. *)
Definition toySchedule : list thread :=
  [ TMain; TMain; TMain;
    TMain; TMain; TMain;
    TMain;
    TWorker 0; TWorker 1; TWorker 0; TWorker 1; TWorker 1; TWorker 0;
    TWorker 0; TWorker 1; TWorker 1; TWorker 0;
    TMain; TMain; TMain; TMain; TMain ].

(** The pool after a schedule, from the start with the scripted browser. *)
Definition toyRun (notReady : list string) (W : nat) (n : nat)
    (sched : list thread) : option (@pool (toyRenderer notReady [] [])) :=
  @run (toyRenderer notReady [] []) W sched
    (@pool_init (toyRenderer notReady [] []) (mkToyPage "" 0)
       (sampleLinks n)).


(** ** More of the chromedp pipeline: [Start] around the pool *)

Section StartAround.
Context `{R : Renderer}.

(** [Start] up to the pool: discovery on [startURL], then the two
    [log.Fatalf] exits (the messages without their pictograph); the
    workers' parent context is the one discovery ran in. *)
Definition Start_begin (c : session) : string + pool :=
  match discoverProductLinks c startURL with
  | (_, (_, Some err)) =>
      inl ("Failed to discover product links: " +:+ err)
  | (c', (productLinks, None)) =>
      if length productLinks =? 0
      then inl "Could not find any product links to scrape. The website structure may have changed."
      else inr (pool_init c' productLinks)
  end.

(** What [Start] hands to [writeCSV] once the drain loop is over. *)
Definition Start_csv (st : pool) : option (list (list string)) :=
  match main st with
  | MDone finalProducts => Some (writeCSV finalProducts)
  | _ => None
  end.


(** The records in flight: collected, on the channel, or about to be
    sent. *)
Definition records (st : pool) : list Product :=
  finalProducts st ++ results st ++ omap sending (workers st).

End StartAround.

(** *** More examples to run *)

(** The pool state a schedule leads to with the scripted browser (the
    start state when the schedule cannot be run). *)
Definition toyState (notReady : list string) (W n : nat)
    (sched : list thread) : @pool (toyRenderer notReady [] []) :=
  default (@pool_init (toyRenderer notReady [] []) (mkToyPage "" 0)
             (sampleLinks n))
    (toyRun notReady W n sched).

(** A listing page with three anchors, the third a duplicate of the
    first; every product page renders. *)
Definition listingRenderer : Renderer :=
  toyRenderer [] [] (sampleLinks 2 ++ sampleLinks 1).

(** [Start] with two workers on that listing, run to its end. *)
Definition listingStart : @pool listingRenderer :=
  match @Start_begin listingRenderer (mkToyPage "" 0) with
  | inr st0 => st0
  | inl _ => @pool_init listingRenderer (mkToyPage "" 0) []
  end.

Definition listingEnd : @pool listingRenderer :=
  default listingStart (@run listingRenderer 2 toySchedule listingStart).

(** ** The remote path from the request to the clean-up (package [main])

    [net/http] and the operating system are collaborators.  The files
    that matter are text files, kept as a map from names to contents;
    the CSV file is kept as the records written to it. *)

Module ZenRowsRun.

Definition AdidasMenURL : string := "https://shop.adidas.jp/men/".
Definition SampleJSONFile : string := "sample.json".

(** The request URL [fmt.Sprintf] builds from the API key and the target
    (each [%%] of the format is one [%]). *)
Definition zenRowsURL (apikey url : string) : string :=
  "https://api.zenrows.com/v1/?apikey=" +:+ apikey +:+ "&url=" +:+ url
  +:+ "&js_render=true&json_response=true&js_instructions=%5B%7B%22click%22%3A%22.selector%22%7D%2C%7B%22wait%22%3A500%7D%2C%7B%22fill%22%3A%5B%22.input%22%2C%22value%22%5D%7D%2C%7B%22wait_for%22%3A%22.slow_selector%22%7D%5D&premium_proxy=true&proxy_country=us".

(** What [client.Do] answers: the status, and what [io.ReadAll] makes of
    the body. *)
Record Response := mkResponse {
  StatusCode : nat;
  Status : string;
  ReadAll : error + string
}.

(** The network and the parts of the operating system the model does not
    decide itself: the key the request carries, [http.NewRequest],
    [client.Do], [file.Write] (the bytes written and the error) and
    whether [os.Remove] of an existing file fails. *)
Class Net := {
  ZenRowsAPIKey : string;
  NewRequest : string → option error;
  Do : string → error + Response;
  Write : string → string → nat * option error;
  Remove : string → option error
}.

(** Why [ScrapeAndSaveToJSON] gave up. *)
Inductive saveError :=
| ErrNewRequest (cause : error)
| ErrDo (cause : error)
| ErrStatus (status : string)
| ErrReadBody (cause : error)
| ErrCreateOutput (cause : error)
| ErrWriteOutput (cause : error).

(** How [main] ends: [log.Fatalf] or its last line. *)
Inductive exit :=
| Fatal
| Completed.

Section Run.
Context `{H : ZenRows.Host} `{N : Net}.

(** [ScrapeAndSaveToJSON(outputFileName)] on the files [fs]: the files
    afterwards and the error.  [os.Create] truncates, and a failing
    write leaves the bytes it wrote. *)
Definition ScrapeAndSaveToJSON (outputFileName : string)
    (fs : gmap string string) : gmap string string * option saveError :=
  let zenRowsURL := zenRowsURL ZenRowsAPIKey AdidasMenURL in
  match NewRequest zenRowsURL with
  | Some err => (fs, Some (ErrNewRequest err))
  | None =>
      match Do zenRowsURL with
      | inl err => (fs, Some (ErrDo err))
      | inr resp =>
          if negb (StatusCode resp =? 200)
          then (fs, Some (ErrStatus (Status resp)))
          else match ReadAll resp with
               | inl err => (fs, Some (ErrReadBody err))
               | inr body =>
                   match ZenRows.Create outputFileName with
                   | Some err => (fs, Some (ErrCreateOutput err))
                   | None =>
                       match Write outputFileName body with
                       | (n, Some err) =>
                           (<[outputFileName := String.substring 0 n body]> fs,
                            Some (ErrWriteOutput err))
                       | (_, None) =>
                           (<[outputFileName := body]> fs, None)
                       end
                   end
               end
      end
  end.

(** The host as [ProcessJSONAndWriteToCSV] meets it when the files are
    [fs]: a file that exists is read whole. *)
Definition hostWith (fs : gmap string string) : ZenRows.Host :=
  {| ZenRows.float64 := @ZenRows.float64 H;
     ZenRows.ReadFile := λ filename,
       match fs !! filename with
       | Some content => inr content
       | None => inl (ZenRows.ErrOpen "no such file or directory")
       end;
     ZenRows.UnmarshalCapture := @ZenRows.UnmarshalCapture H;
     ZenRows.UnmarshalRecommendations := @ZenRows.UnmarshalRecommendations H;
     ZenRows.Sprintf_2f := @ZenRows.Sprintf_2f H;
     ZenRows.MkdirAll := @ZenRows.MkdirAll H;
     ZenRows.Create := @ZenRows.Create H |}.

(** [main()]: the files afterwards, the records written to the CSV file
    in this run, and how it ended.  The CSV file is not part of [fs]: it
    is the second component of the result. *)
Definition main (fs : gmap string string)
  : gmap string string * option (list (list string)) * exit :=
  match ScrapeAndSaveToJSON SampleJSONFile fs with
  | (fs1, Some _) => (fs1, None, Fatal)
  | (fs1, None) =>
      match @ZenRows.ProcessJSONAndWriteToCSV (hostWith fs1) SampleJSONFile
      with
      | (csv, Some _) => (fs1, csv, Fatal)
      | (csv, None) =>
          match fs1 !! SampleJSONFile with
          | None => (fs1, csv, Completed)
          | Some _ =>
              match Remove SampleJSONFile with
              | Some _ => (fs1, csv, Completed)
              | None => (delete SampleJSONFile fs1, csv, Completed)
              end
          end
      end
  end.

End Run.

End ZenRowsRun.

(** A network that answers 200 with the capture of [toyHost], and an
    operating system on which nothing fails. *)
Definition toyNet : ZenRowsRun.Net :=
  {| ZenRowsRun.ZenRowsAPIKey := "key";
     ZenRowsRun.NewRequest := λ _, None;
     ZenRowsRun.Do := λ _,
       inr (ZenRowsRun.mkResponse 200 "200 OK" (inr "capture"));
     ZenRowsRun.Write := λ _ body, (String.length body, None);
     ZenRowsRun.Remove := λ _, None |}.


(** A network that answers 200 with a page that is not a capture. *)
Definition toyNetGarbage : ZenRowsRun.Net :=
  {| ZenRowsRun.ZenRowsAPIKey := "key";
     ZenRowsRun.NewRequest := λ _, None;
     ZenRowsRun.Do := λ _,
       inr (ZenRowsRun.mkResponse 200 "200 OK" (inr "<html>"));
     ZenRowsRun.Write := λ _ body, (String.length body, None);
     ZenRowsRun.Remove := λ _, None |}.

(** The session after [j] rounds of the scroll loop that all went well
    ([None] if one of them failed). *)
Fixpoint scrolled `{R : Renderer} (j : nat) (s : session) : option session :=
  match j with
  | 0 => Some s
  | S j' =>
      match exec s (EvaluateDiscard scrollScript) with
      | (_, inl _) => None
      | (s', inr _) => scrolled j' (elapse 2 s')
      end
  end.

(** A browser that loses its page after three actions: from then on no
    script can be evaluated. *)
Definition crashingRenderer : Renderer :=
  {| session := toyPage;
     exec := λ T s a,
       match a in action T0 return toyPage * (error + T0) with
       | EvaluateDiscard _ =>
           if 3 <=? executed s
           then (mkToyPage (current s) (S (executed s)),
                 inl "context canceled")
           else (mkToyPage (current s) (S (executed s)), inr tt)
       | a' => @toy_exec [] [] [] _ s a'
       end;
     elapse := λ _ s, s;
     NewContext := λ _, mkToyPage "" 0 |}.


(** * Proofs

    ** Identifier derivation *)

#[local] Arguments String.append !_ _ / : simpl nomatch.

Section StringFacts.
Variable c : ascii.

Lemma Split_nonempty (s : string) : Split s c ≠ [].
Proof.
  destruct s as [|d s]; simpl; [done|].
  destruct (Ascii.eqb d c); [done|]. by destruct (Split s c).
Qed.

(** Splitting at a separator splits the list of segments. *)
Lemma Split_app_sep (a b : string) :
  Split (a +:+ String c b) c = Split a c ++ Split b c.
Proof.
  induction a as [|d a IH]; simpl.
  - by rewrite Ascii.eqb_refl.
  - destruct (Ascii.eqb d c); [by rewrite IH|].
    rewrite IH. destruct (Split a c) as [|seg segs] eqn:E; [|done].
    by apply Split_nonempty in E.
Qed.

Lemma seps_snoc (k : nat) : seps c (S k) = seps c k +:+ String c "".
Proof. induction k as [|k IH]; [done|]. simpl in *. by f_equal. Qed.

Lemma app_seps_S (s : string) (k : nat) :
  s +:+ seps c (S k) = (s +:+ seps c k) +:+ String c "".
Proof.
  induction s as [|d s IH]; [apply seps_snoc|].
  simpl. f_equal. apply IH.
Qed.

Lemma Split_app_seps (s : string) (k : nat) :
  Split (s +:+ seps c k) c = Split s c ++ replicate k "".
Proof.
  induction k as [|k IH].
  - simpl. rewrite app_nil_r. f_equal.
    induction s as [|d s IHs]; simpl; [done|by rewrite IHs].
  - rewrite app_seps_S, Split_app_sep, IH. simpl.
    rewrite <- app_assoc. f_equal.
    symmetry. apply (replicate_S_end k "").
Qed.

Lemma TrimLeft_seps (s : string) : ∃ k, s = seps c k +:+ TrimLeft s c.
Proof.
  induction s as [|d s [k IH]]; simpl; [by exists 0|].
  destruct (Ascii.eqb_spec d c) as [->|Hd].
  - exists (S k). simpl. by f_equal.
  - by exists 0.
Qed.

Lemma TrimRight_seps (s : string) : ∃ k, s = TrimRight s c +:+ seps c k.
Proof.
  induction s as [|d s [k IH]]; simpl; [by exists 0|].
  destruct (TrimRight s c) as [|e r] eqn:E.
  - destruct (Ascii.eqb_spec d c) as [->|Hd].
    + exists (S k). simpl in *. by f_equal.
    + exists k. simpl in *. by f_equal.
  - exists k. simpl in *. by f_equal.
Qed.

(** After [TrimRight], the last segment is empty only for the empty string. *)
Lemma TrimRight_last_segment (s : string) :
  last (Split (TrimRight s c) c) = Some "" → TrimRight s c = "".
Proof.
  induction s as [|d s IH]; simpl; [done|].
  destruct (TrimRight s c) as [|e r] eqn:E.
  - destruct (Ascii.eqb_spec d c) as [->|Hd]; [done|].
    simpl. apply Ascii.eqb_neq in Hd. by rewrite Hd.
  - intros Hl. exfalso.
    remember (String e r) as t eqn:Et. simpl in Hl.
    destruct (Ascii.eqb d c).
    + destruct (Split t c) as [|seg segs] eqn:Es;
        [by apply Split_nonempty in Es|].
      rewrite last_cons_cons in Hl. apply IH in Hl. by subst.
    + destruct (Split t c) as [|seg segs] eqn:Es;
        [by apply Split_nonempty in Es|].
      destruct segs as [|seg' segs]; [done|].
      rewrite last_cons_cons in Hl.
      assert (last (seg :: seg' :: segs) = Some "") as Hl'
        by by rewrite last_cons_cons.
      apply IH in Hl'. by subst.
Qed.

End StringFacts.

Lemma segments_replicate (k : nat) :
  filter (λ seg : string, seg ≠ "") (replicate k "") = [].
Proof. induction k as [|k IH]; simpl; [done|]. by rewrite filter_cons_False by auto. Qed.


Lemma segments_TrimLeft (s : string) : segments (TrimLeft s "/") = segments s.
Proof.
  destruct (TrimLeft_seps "/" s) as [k Hk]. rewrite Hk at 2. clear Hk.
  induction k as [|k IH]; simpl; [done|].
  unfold segments in *. simpl. rewrite filter_cons_False by auto. done.
Qed.

Lemma segments_TrimRight (s : string) : segments (TrimRight s "/") = segments s.
Proof.
  destruct (TrimRight_seps "/" s) as [k Hk]. rewrite Hk at 2.
  unfold segments. rewrite Split_app_seps, filter_app, segments_replicate.
  by rewrite app_nil_r.
Qed.

(** The identifier is the last non-empty segment of the whole URL text. *)
Lemma productID_last_segment (url : string) :
  productID url = last_nonempty_segment url.
Proof.
  unfold productID, last_nonempty_segment.
  fold (segments url).
  rewrite <- segments_TrimLeft, <- segments_TrimRight. fold (Trim url "/").
  unfold Trim. set (t := TrimLeft url "/").
  destruct (Split (TrimRight t "/") "/") as [|seg segs] eqn:Es;
    [by apply Split_nonempty in Es|].
  replace (0 <? length (seg :: segs))%nat with true by done.
  replace (length (seg :: segs) - 1) with (pred (length (seg :: segs))) by (simpl; lia).
  rewrite <- last_lookup. unfold segments. rewrite Es.
  destruct (last (seg :: segs)) as [x|] eqn:El; [|by apply last_None in El].
  apply last_Some in El as [l' El]. rewrite El.
  rewrite filter_app. simpl.
  destruct (decide (x = "")) as [->|Hx].
  - assert (TrimRight t "/" = "") as Ht.
    { apply TrimRight_last_segment. rewrite Es, El. apply last_snoc. }
    rewrite Ht in Es. simpl in Es. rewrite Es in El.
    destruct l'; simplify_eq/=; [done|by destruct l'].
  - rewrite filter_cons_True, filter_nil by done. by rewrite last_snoc.
Qed.










(** ** [chromedp.Run] and [scrapeProductPage] *)

Section RunFacts.
Context `{R : Renderer}.

(** A run that gets through a prefix goes on with the rest. *)
Lemma Run_app {L : Type} (s s1 : session) (pre post : list (task L))
    (l l1 : L) :
  Run s pre l = (s1, l1, None) → Run s (pre ++ post) l = Run s1 post l1.
Proof.
  revert s l. induction pre as [|t pre IH]; intros s l; simpl.
  - by intros [= -> ->].
  - destruct t as [T a store|f].
    + destruct (exec s a) as [s' [e|v]]; [done|]. apply IH.
    + destruct (f s) as [s' [e|]]; [done|]. apply IH.
Qed.

(** What every task keeps, the run keeps. *)
Lemma Run_preserves {L : Type} (P : L → Prop) (tasks : list (task L))
    (s s' : session) (l l' : L) (e : option error) :
  Forall (task_preserves P) tasks → P l →
  Run s tasks l = (s', l', e) → P l'.
Proof.
  intros Hall. revert s l. induction Hall as [|t tasks Ht _ IH];
    intros s l Hl; simpl.
  - by intros [= _ <- _].
  - destruct t as [T a store|f].
    + destruct (exec s a) as [s1 [err|v]]; [by intros [= _ <- _]|].
      apply IH, Ht, Hl.
    + destruct (f s) as [s1 [err|]]; [by intros [= _ <- _]|]. by apply IH.
Qed.

Lemma on_p_keeps_URL_and_ID (f : string → Product → Product) :
  (∀ v q, URL (f v q) = URL q ∧ ProductID (f v q) = ProductID q) →
  ∀ (url : string) v l,
    URL (p l) = url ∧ ProductID (p l) = productID url →
    URL (p (on_p f v l)) = url ∧ ProductID (p (on_p f v l)) = productID url.
Proof. intros Hf url v l [<- <-]. simpl. apply Hf. Qed.

(** No action of the list writes [p.URL] or [p.ProductID]. *)
Lemma scrapeActions_keep_URL_and_ID (url : string) :
  Forall (task_preserves
            (λ l, URL (p l) = url ∧ ProductID (p l) = productID url))
         (scrapeActions url).
Proof.
  unfold scrapeActions.
  repeat (apply Forall_cons; split;
          [intros v l H;
           first [ exact H
                 | apply on_p_keeps_URL_and_ID; [by intros ? []|exact H] ]|]).
  apply Forall_nil_2.
Qed.

(** A record that comes back without error carries the URL it was asked
    for and the identifier derived from it. *)
Lemma scrape_success_URL (s s' : session) (url : string) (product : Product) :
  scrapeProductPage s url = (s', (product, None)) →
  URL product = url ∧ ProductID product = productID url.
Proof.
  unfold scrapeProductPage.
  destruct (Run s (scrapeActions url) (initialVars url))
    as [[s1 l1] [err|]] eqn:Hrun; [done|].
  intros [= _ <-].
  apply (Run_preserves _ _ _ _ _ _ _ (scrapeActions_keep_URL_and_ID url))
    in Hrun; [|done].
  destruct l1 as [[] ? ? ?]. simpl in *. done.
Qed.

(** A failing action ends the call where it failed. *)
Lemma scrape_failing_step (s s1 s2 : session) (url : string)
    (pre post : list (task scrapeVars)) {T : Type} (a : action T)
    (store : T → scrapeVars → scrapeVars) (l1 : scrapeVars) (e : error) :
  scrapeActions url = pre ++ Do a store :: post →
  Run s pre (initialVars url) = (s1, l1, None) →
  exec s1 a = (s2, inl e) →
  scrapeProductPage s url
  = (s2, (zeroProduct, Some ("browser actions failed: " +:+ e))).
Proof.
  intros Hsplit Hpre Hfail. unfold scrapeProductPage.
  rewrite Hsplit, (Run_app _ _ _ _ _ _ Hpre). simpl. by rewrite Hfail.
Qed.

End RunFacts.





(** C9: when a browser action fails, [scrapeProductPage] returns
    [Product{}] with the error: every field is empty, the [ProductID]
    too, although it had been derived from the URL before the run. *)
Theorem scrape_error_returns_zero_Product `{R : Renderer}
    (s s1 s2 : session) (url : string)
    (pre post : list (task scrapeVars)) {T : Type} (a : action T)
    (store : T → scrapeVars → scrapeVars) (l1 : scrapeVars) (e : error) :
  scrapeActions url = pre ++ Do a store :: post →
  Run s pre (initialVars url) = (s1, l1, None) →
  exec s1 a = (s2, inl e) →
  ∃ product err,
    scrapeProductPage s url = (s2, (product, Some err))
    ∧ product = zeroProduct
    ∧ Forall (λ cell, cell = "") (csvRow product)
    ∧ ProductID product = ""
    ∧ ProductID (p (initialVars url)) = productID url.
Proof.
  intros Hsplit Hpre Hfail. exists zeroProduct. eexists. split.
  - by eapply scrape_failing_step.
  - split; [done|]. split; [|done]. unfold csvRow, zeroProduct. simpl.
    repeat constructor.
Qed.

(** A page without size-chart link: the click, the 18th action, fails. *)
Lemma scrape_error_returns_zero_Product_witness :
  ∃ product err,
    @scrapeProductPage
      (toyRenderer [] ["https://shop.adidas.jp/products/IE3437/"] [])
      (mkToyPage "" 0) "https://shop.adidas.jp/products/IE3437/"
    = (mkToyPage "https://shop.adidas.jp/products/IE3437/" 18,
       (product, Some err))
    ∧ product = zeroProduct
    ∧ Forall (λ cell, cell = "") (csvRow product)
    ∧ ProductID product = ""
    ∧ ProductID (p (initialVars "https://shop.adidas.jp/products/IE3437/"))
      = "IE3437".
Proof.
  pose (R := toyRenderer [] ["https://shop.adidas.jp/products/IE3437/"] []).
  pose (url := "https://shop.adidas.jp/products/IE3437/").
  pose (pre := take 17 (@scrapeActions R url)).
  pose (mid := @Run R _ (mkToyPage "" 0) pre (initialVars url)).
  exact (@scrape_error_returns_zero_Product R
           (mkToyPage "" 0) mid.1.1 (mkToyPage url 18) url
           pre (drop 18 (@scrapeActions R url)) unit
           (ClickVisible ".p-size-chart__link") skip mid.1.2
           "context deadline exceeded"
           eq_refl eq_refl eq_refl).
Defined.


(** ** Link discovery *)

Section Discovery.
Context `{R : Renderer}.

(** The loop, with the map standing for the URLs already in [result],
    appends the first-seen new links. *)
Lemma dedupLoop_first_seen (links : list string) :
  ∀ (uniqueLinks : gmap string bool) (result : list string),
    (∀ x, default false (uniqueLinks !! x) = true ↔ x ∈ result) →
    dedupLoop links uniqueLinks result = result ++ first_seen result links.
Proof.
  induction links as [|link rest IH]; intros m res Hm; simpl.
  - by rewrite app_nil_r.
  - destruct (default false (m !! link)) eqn:Hl; simpl.
    + apply Hm in Hl. rewrite decide_True by done. by apply IH.
    + assert (link ∉ res) as Hnot.
      { intros Hin%Hm. congruence. }
      rewrite decide_False by done.
      rewrite IH; [by rewrite <- app_assoc|].
      intros x. rewrite elem_of_app, list_elem_of_singleton.
      destruct (decide (link = x)) as [->|Hne].
      * rewrite lookup_insert_eq. simpl. tauto.
      * rewrite lookup_insert_ne by done. rewrite Hm.
        split; [tauto|]. intros [?|?]; [done|congruence].
Qed.

Lemma first_seen_elem_of (links : list string) :
  ∀ seen x, x ∈ first_seen seen links ↔ x ∈ links ∧ x ∉ seen.
Proof.
  induction links as [|a l IH]; intros seen x; simpl.
  - rewrite elem_of_nil. tauto.
  - destruct (decide (a ∈ seen)) as [Ha|Ha].
    + rewrite IH, elem_of_cons. split; [tauto|].
      intros [[->|?] ?]; tauto.
    + rewrite !elem_of_cons, IH, elem_of_app, list_elem_of_singleton.
      split.
      * intros [->|[? ?]]; [tauto|]. tauto.
      * intros [[->|?] ?]; [tauto|].
        destruct (decide (x = a)); tauto.
Qed.

Lemma first_seen_NoDup (links : list string) :
  ∀ seen, NoDup (first_seen seen links).
Proof.
  induction links as [|a l IH]; intros seen; simpl; [constructor|].
  destruct (decide (a ∈ seen)); [apply IH|].
  constructor; [|apply IH].
  rewrite first_seen_elem_of, elem_of_app, list_elem_of_singleton. tauto.
Qed.

Lemma first_index_cons_ne (a x : string) (l : list string) :
  a ≠ x → first_index x (a :: l) = S (first_index x l).
Proof. intros. simpl. by rewrite decide_False. Qed.

Lemma first_seen_order (links : list string) :
  ∀ seen (i j : nat) (x y : string),
    first_seen seen links !! i = Some x →
    first_seen seen links !! j = Some y →
    i < j → first_index x links < first_index y links.
Proof.
  induction links as [|a l IH]; intros seen i j x y; simpl; [done|].
  destruct (decide (a ∈ seen)) as [Ha|Ha].
  - intros Hx Hy Hij.
    assert (x ≠ a ∧ y ≠ a) as [? ?].
    { apply list_elem_of_lookup_2, first_seen_elem_of in Hx, Hy.
      split; intros ->; tauto. }
    rewrite !decide_False by done.
    apply ->Nat.succ_lt_mono. eauto.
  - destruct i as [|i], j as [|j]; simpl; try lia.
    + intros [= ->] Hy _. rewrite decide_True by done.
      apply list_elem_of_lookup_2, first_seen_elem_of in Hy.
      rewrite elem_of_app, list_elem_of_singleton in Hy.
      rewrite decide_False by (intros ->; tauto). lia.
    + intros Hx Hy Hij.
      assert (x ≠ a ∧ y ≠ a) as [? ?].
      { apply list_elem_of_lookup_2, first_seen_elem_of in Hx, Hy.
        rewrite elem_of_app, list_elem_of_singleton in Hx, Hy.
        split; intros ->; tauto. }
      rewrite !decide_False by done.
      apply ->Nat.succ_lt_mono. eapply IH; eauto. lia.
Qed.

(** C3: when the run over the listing page succeeds with the raw anchor
    list [links], discovery returns every distinct URL of [links] exactly
    once (as many URLs as [links] has distinct ones), in the order of the
    first occurrences in [links]. *)
Theorem discoverProductLinks_unique_first_seen
    (s s' : session) (url : string) (links : list string) :
  Run s (discoverActions url) [] = (s', links, None) →
  ∃ result,
    discoverProductLinks s url = (s', (result, None))
    ∧ NoDup result
    ∧ (∀ x, x ∈ result ↔ x ∈ links)
    ∧ length result = size (list_to_set links : gset string)
    ∧ ∀ (i j : nat) (x y : string),
        result !! i = Some x → result !! j = Some y →
        (i < j ↔ first_index x links < first_index y links).
Proof.
  intros Hrun. exists (first_seen [] links).
  assert (∀ x, x ∈ first_seen [] links ↔ x ∈ links) as Helem.
  { intros x. rewrite first_seen_elem_of, elem_of_nil. tauto. }
  pose proof (first_seen_NoDup links []) as Hnd.
  split; [|split; [done|split; [done|split]]].
  - unfold discoverProductLinks. rewrite Hrun.
    rewrite dedupLoop_first_seen; [done|].
    intros x. rewrite lookup_empty, elem_of_nil. simpl. split; [done|tauto].
  - rewrite <- (size_list_to_set (C := gset string)) by done.
    f_equal. apply set_eq. intros x. by rewrite !elem_of_list_to_set.
  - intros i j x y Hx Hy. split; [by eapply first_seen_order|].
    intros Hlt. destruct (Nat.lt_trichotomy i j) as [?|[->|Hji]]; [done| |].
    + rewrite Hx in Hy. injection Hy as ->. lia.
    + pose proof (first_seen_order _ _ _ _ _ _ Hy Hx Hji). lia.
Qed.

End Discovery.

(** Three anchors, one of them a duplicate. *)
Lemma discoverProductLinks_unique_first_seen_witness :
  ∃ result,
    @discoverProductLinks (toyRenderer [] [] ["/p/2/"; "/p/1/"; "/p/2/"])
      (mkToyPage "" 0) startURL
    = (mkToyPage startURL 7, (result, None))
    ∧ NoDup result
    ∧ (∀ x, x ∈ result ↔ x ∈ ["/p/2/"; "/p/1/"; "/p/2/"])
    ∧ length result = size (list_to_set ["/p/2/"; "/p/1/"; "/p/2/"] : gset string)
    ∧ ∀ (i j : nat) (x y : string),
        result !! i = Some x → result !! j = Some y →
        (i < j ↔ first_index x ["/p/2/"; "/p/1/"; "/p/2/"]
                 < first_index y ["/p/2/"; "/p/1/"; "/p/2/"]).
Proof.
  exact (@discoverProductLinks_unique_first_seen
           (toyRenderer [] [] ["/p/2/"; "/p/1/"; "/p/2/"])
           (mkToyPage "" 0) (mkToyPage startURL 7) startURL
           ["/p/2/"; "/p/1/"; "/p/2/"] eq_refl).
Defined.


(** ** The worker pool *)

#[local] Opaque productTarget.

Section Pool.
Context `{R : Renderer}.

(** *** The log *)

Lemma finished_snoc (lg : list event) (e : event) :
  finished (lg ++ [e]) = finished lg ++ finished [e].
Proof. apply omap_app. Qed.

Lemma succeeded_snoc (lg : list event) (e : event) :
  succeeded (lg ++ [e]) = succeeded lg ++ succeeded [e].
Proof. apply omap_app. Qed.

(** Every finished job failed or succeeded. *)
Lemma finished_split (lg : list event) :
  finished lg ≡ₚ failed lg ++ succeeded lg.
Proof.
  induction lg as [|e lg IH]; [done|].
  destruct e; cbn [finished failed succeeded omap list_omap] in *;
    fold (finished lg) (failed lg) (succeeded lg); simpl.
  - done.
  - by rewrite IH.
  - rewrite IH. by rewrite Permutation_middle.
Qed.

(** *** Replacing one goroutine of the list *)

Lemma worker_update (ws : list workerState) (k : nat) (w : workerState) :
  ws !! k = Some w →
  ∃ rest, ws ≡ₚ w :: rest ∧ ∀ w', <[k := w']> ws ≡ₚ w' :: rest.
Proof.
  intros Hk. exists (delete k ws). split; [by apply delete_Permutation|].
  intros w'. rewrite insert_take_drop by by eapply lookup_lt_Some.
  rewrite delete_take_drop. by rewrite Permutation_middle.
Qed.

(** *** The steps keep the invariant *)

Lemma pool_init_inv (W : nat) (c : session) (links : list string) :
  pool_inv W (pool_init c links).
Proof.
  split; try done. simpl. repeat split; try done; lia.
Qed.

Lemma drop_nil_take {A : Type} (l : list A) (i n : nat) :
  drop i l = [] → i ≤ n → take i l = take n l.
Proof.
  intros Hd Hin. apply drop_nil_inv in Hd.
  rewrite !take_ge by lia. done.
Qed.

Lemma drop_cons_lookup {A : Type} (l rest : list A) (i : nat) (x : A) :
  drop i l = x :: rest → l !! i = Some x ∧ rest = drop (S i) l.
Proof.
  intros Hd.
  assert (l !! i = Some x) as Hl.
  { rewrite <- (Nat.add_0_r i), <- lookup_drop, Hd. done. }
  split; [done|]. rewrite (drop_S _ _ _ Hl) in Hd. congruence.
Qed.

(** Equal up to the order of the elements, under [fmap]. *)
Ltac list_perm :=
  repeat (rewrite fmap_app || rewrite fmap_cons || rewrite fmap_nil);
  solve_Permutation.

(** The six parts of the invariant, at a given state. *)
Ltac inv_goals :=
  split; unfold enqueued, finalProducts, phase_inv; simpl; try done.

(** The state a step leads to. *)
Ltac stepped :=
  let Hst := fresh "Hst" in
  intros Hst; first [discriminate Hst | apply (inj Some) in Hst; subst].

Lemma Start_step_inv (W : nat) (st st' : pool) :
  pool_inv W st → Start_step W st = Some st' → pool_inv W st'.
Proof.
  destruct st as [c links pc js jc rs rc n ws lg pn].
  intros [Hpn Hwg Hjobs Hres Hret Hph]. simpl in *. subst pn.
  unfold phase_inv, enqueued, finalProducts in *. simpl in *.
  destruct pc as [i|i rest| | | |fp|fp]; simpl in *.
  - (* the spawn loop *)
    destruct Hph as (Hi & Hlen & -> & -> & -> & Hrecv & -> & ->).
    destruct (Nat.leb_spec i W) as [HiW|HiW]; stepped.
    + inv_goals.
      * rewrite omap_app, length_app. simpl. lia.
      * by rewrite omap_app, app_nil_r.
      * by rewrite omap_app, app_nil_r.
      * apply Forall_app. split; [done|].
        apply Forall_singleton. simpl. by intros [?|?].
      * rewrite length_app. simpl.
        repeat split; try done; try lia.
        apply Forall_app. split; [done|]. by apply Forall_singleton.
    + inv_goals.
      repeat split; try done; lia.
  - (* the fill loop *)
    destruct Hph as (Hrest & Hit & Hil & Hlen & -> & ->).
    destruct rest as [|link rest].
    { stepped. inv_goals.
      unfold enqueued. simpl.
      by rewrite <- (drop_nil_take links i productTarget). }
    destruct (Nat.leb_spec productTarget i) as [Hti|Hti].
    { stepped. inv_goals.
      by replace productTarget with i by lia. }
    destruct (Nat.ltb_spec (length js) (length links)); stepped.
    symmetry in Hrest. apply drop_cons_lookup in Hrest as [Hlink ->].
    inv_goals.
    + rewrite (take_S_r _ _ _ Hlink), Hjobs.
      solve_Permutation.
    + eapply Forall_impl; [exact Hret|]. simpl. intros w Hw Hr.
      by destruct (Hw Hr).
    + apply lookup_lt_Some in Hlink.
      repeat split; try done; lia.
  - (* close(jobs) *)
    destruct Hph as (Hlen & -> & ->). stepped.
    inv_goals.
    eapply Forall_impl; [exact Hret|]. simpl. intros w Hw Hr.
    by destruct (Hw Hr).
  - (* wg.Wait() *)
    destruct Hph as (Hlen & -> & ->).
    destruct (Nat.eqb_spec n 0) as [->|]; stepped.
    by inv_goals.
  - (* close(results) *)
    destruct Hph as (Hlen & -> & -> & ->). stepped.
    by inv_goals.
  - (* the drain loop *)
    destruct Hph as (Hlen & -> & -> & ->).
    destruct rs as [|product rs]; stepped.
    + by inv_goals.
    + inv_goals.
      rewrite <- Hres. list_perm.
  - done.
Qed.

(** A goroutine that runs keeps the wait-group counter positive, and
    during the spawn loop every goroutine waits at its receive. *)
Lemma running_positive (ws : list workerState) (k : nat) (w : workerState) :
  ws !! k = Some w → at_pc w ≠ WDone → 0 < length (omap running ws).
Proof.
  intros Hk Hw. destruct (worker_update _ _ _ Hk) as (rest & -> & _).
  simpl. unfold running at 1. destruct (at_pc w); simpl; try lia. done.
Qed.

(** The program point of [Start] allows the worker's step. *)
Ltac phase_goal pc Hspawn :=
  destruct pc; simpl in *;
  try (destruct (Hspawn _ eq_refl) as (? & ? & ?));
  intuition (try congruence; try lia).

Ltac worker_fields :=
  unfold running, scraping, sending in *; simpl in *.

Lemma worker_step_inv (W k : nat) (st st' : pool) :
  pool_inv W st → worker_step k st = Some st' → pool_inv W st'.
Proof.
  destruct st as [c links pc js jc rs rc n ws lg pn].
  intros [Hpn Hwg Hjobs Hres Hret Hph]. simpl in *. subst pn.
  unfold phase_inv in Hph. simpl in Hph.
  destruct (ws !! k) as [[id wpc0 tc]|] eqn:Hk; [|done].
  assert (∀ i, pc = MSpawn i → wpc0 = WRecv ∧ js = [] ∧ jc = false)
    as Hspawn.
  { intros i ->. destruct Hph as (_ & _ & -> & -> & _ & Hrecv & _).
    split; [|done]. by apply (Forall_lookup_1 _ _ _ _ Hrecv Hk). }
  assert (0 < n → pc ≠ MCloseResults ∧ (∀ fp, pc ≠ MDrain fp)
                  ∧ (∀ fp, pc ≠ MDone fp) ∧ rc = false) as Hrun.
  { intros Hn. destruct pc; simpl in Hph;
      repeat split; try done; intros; try done; try tauto; try lia. }
  assert (wpc0 ≠ WDone → 0 < n) as Hpos.
  { intros Hw. rewrite Hwg. by eapply running_positive. }
  destruct (worker_update _ _ _ Hk) as (rest & Hws & Hupd).
  unfold enqueued, finalProducts in *; simpl in *.
  rewrite Hws in Hwg, Hjobs, Hres, Hret.
  apply Forall_cons in Hret as [Hw Hret].
  destruct wpc0 as [|url|product| |]; worker_fields.
  - (* receive from jobs *)
    destruct js as [|url js].
    + destruct jc; stepped.
      inv_goals; rewrite ?Hupd; worker_fields; try done.
      * apply Forall_cons. split; [done|]. done.
      * rewrite length_insert. phase_goal pc Hspawn.
    + stepped.
      inv_goals; rewrite ?Hupd; worker_fields; try done.
      * rewrite finished_snoc, Hjobs. simpl. solve_Permutation.
      * by rewrite succeeded_snoc, app_nil_r.
      * apply Forall_cons. split; [by intros [?|?]|].
        eapply Forall_impl; [exact Hret|]. simpl. intros w Hw' Hr.
        by destruct (Hw' Hr).
      * rewrite length_insert. phase_goal pc Hspawn.
  - (* scrapeProductPage *)
    destruct (scrapeProductPage tc url) as [tc' [product [err|]]] eqn:Hs;
      stepped.
    + inv_goals; rewrite ?Hupd; worker_fields; try done.
      * rewrite finished_snoc, Hjobs. simpl. solve_Permutation.
      * by rewrite succeeded_snoc, app_nil_r.
      * apply Forall_cons. split; [by intros [?|?]|done].
      * rewrite length_insert. phase_goal pc Hspawn.
    + apply scrape_success_URL in Hs as [Hurl _].
      inv_goals; rewrite ?Hupd; worker_fields; try done.
      * rewrite finished_snoc, Hjobs. simpl. solve_Permutation.
      * rewrite succeeded_snoc, <- Hres. simpl. rewrite <- Hurl. list_perm.
      * apply Forall_cons. split; [by intros [?|?]|done].
      * rewrite length_insert. phase_goal pc Hspawn.
  - (* send on results *)
    destruct (Hrun (Hpos ltac:(done))) as (Hp1 & Hp2 & Hp3 & ->).
    destruct (Nat.ltb_spec (length rs) (length links)); stepped.
    inv_goals; rewrite ?Hupd; worker_fields; try done.
    + rewrite <- Hres. list_perm.
    + apply Forall_cons. split; [by intros [?|?]|done].
    + rewrite length_insert. phase_goal pc Hspawn.
  - (* return: the deferred wg.Done() *)
    destruct (Hrun (Hpos ltac:(done))) as (Hp1 & Hp2 & Hp3 & ->).
    destruct n as [|n]; [lia|]. stepped.
    destruct (Hw ltac:(by left)) as [-> ->].
    inv_goals; rewrite ?Hupd; worker_fields; try done.
    + lia.
    + apply Forall_cons. split; [|done]. intros _. apply Hw. by left.
    + rewrite length_insert. phase_goal pc Hspawn.
  - done.
Qed.

Lemma step_inv (W : nat) (t : thread) (st st' : pool) :
  pool_inv W st → step W t st = Some st' → pool_inv W st'.
Proof.
  unfold step. destruct (panicked st); [done|].
  destruct t; [apply Start_step_inv|apply worker_step_inv].
Qed.

Lemma run_inv (W : nat) (sched : list thread) :
  ∀ st st', pool_inv W st → run W sched st = Some st' → pool_inv W st'.
Proof.
  induction sched as [|t sched IH]; intros st st' Hinv; simpl.
  - by intros [= <-].
  - destruct (step W t st) as [st1|] eqn:Hstep; [|done].
    apply IH. by eapply step_inv.
Qed.

(** Every state a schedule reaches from the start satisfies the invariant. *)
Lemma reachable_inv (W : nat) (c : session) (links : list string)
    (sched : list thread) (st : pool) :
  run W sched (pool_init c links) = Some st → pool_inv W st.
Proof. apply run_inv, pool_init_inv. Qed.

Lemma run_app (W : nat) (sched1 sched2 : list thread) :
  ∀ st st1, run W sched1 st = Some st1 →
            run W (sched1 ++ sched2) st = run W sched2 st1.
Proof.
  induction sched1 as [|t sched1 IH]; intros st st1; simpl.
  - by intros [= <-].
  - destruct (step W t st) as [st'|]; [apply IH|done].
Qed.

(** [productLinks] is never assigned after discovery. *)
Lemma step_productLinks (W : nat) (t : thread) (st st' : pool) :
  step W t st = Some st' → productLinks st' = productLinks st.
Proof.
  unfold step. destruct (panicked st); [done|].
  destruct st as [c links pc js jc rs rc n ws lg pn].
  destruct t as [|k]; simpl.
  - destruct pc as [i|i [|link rest]| | | |fp|fp]; simpl;
      repeat (match goal with
              | |- context [if ?b then _ else _] => destruct b
              | |- context [match ?l with [] => _ | _ :: _ => _ end] =>
                  destruct l
              end); by stepped.
  - destruct (ws !! k) as [[id wpc0 tc]|]; [|done].
    destruct wpc0; simpl;
      repeat (match goal with
              | |- context [let (_, _) := ?x in _] => destruct x
              | |- context [match ?o with Some _ => _ | None => _ end] =>
                  destruct o
              | |- context [if ?b then _ else _] => destruct b
              | |- context [match ?l with [] => _ | _ :: _ => _ end] =>
                  destruct l
              | |- context [match ?n with 0 => _ | S _ => _ end] =>
                  destruct n
              end); by stepped.
Qed.

Lemma run_productLinks (W : nat) (sched : list thread) :
  ∀ st st', run W sched st = Some st' → productLinks st' = productLinks st.
Proof.
  induction sched as [|t sched IH]; intros st st'; simpl.
  - by intros [= <-].
  - destruct (step W t st) as [st1|] eqn:Hstep; [|done].
    intros Hrun. rewrite (IH _ _ Hrun). by eapply step_productLinks.
Qed.

(** *** Every step brings the pool closer to its end *)

Lemma worker_weight_update (ws : list workerState) (w w' : workerState) :
  ∀ k, ws !! k = Some w →
       sum_list (wweight <$> <[k := w']> ws) + wweight w
       = sum_list (wweight <$> ws) + wweight w'.
Proof.
  induction ws as [|v ws IH]; intros [|k]; csimpl; try done.
  - intros [= ->]. lia.
  - intros Hk. specialize (IH _ Hk). lia.
Qed.

Lemma sum_list_snoc (l : list nat) (x : nat) :
  sum_list (l ++ [x]) = sum_list l + x.
Proof. induction l as [|y l IH]; simpl; lia. Qed.

Lemma step_measure (W : nat) (t : thread) (st st' : pool) :
  pool_inv W st → step W t st = Some st' → measure W st' < measure W st.
Proof.
  intros Hinv Hstep. pose proof (step_inv _ _ _ _ Hinv Hstep) as Hinv'.
  apply inv_panicked in Hinv'. revert Hstep Hinv'.
  unfold step. rewrite (inv_panicked _ _ Hinv).
  destruct Hinv as [_ _ _ _ _ Hph].
  destruct st as [c links pc js jc rs rc n ws lg pn].
  unfold measure, mweight, phase_inv in *. destruct t as [|k]; simpl in *.
  - destruct pc as [i|i [|link rest]| | | |fp|fp]; simpl;
      repeat (match goal with
              | |- context [if ?b then _ else _] => destruct b eqn:?
              | |- context [match ?l with [] => _ | _ :: _ => _ end] =>
                  destruct l
              end); stepped; simpl; try done; intros _;
      rewrite ?fmap_app, ?sum_list_snoc, ?length_app; simpl;
      try (apply Nat.leb_le in Heqb); try lia.
    rewrite sum_list_snoc. generalize (sum_list (wweight <$> ws)).
    unfold wweight. simpl. lia.
  - destruct (ws !! k) as [[id wpc0 tc]|] eqn:Hk; [|done].
    destruct wpc0; simpl;
      repeat (match goal with
              | |- context [let (_, _) := ?x in _] => destruct x
              | |- context [match ?o with Some _ => _ | None => _ end] =>
                  destruct o
              | |- context [if ?b then _ else _] => destruct b
              | |- context [match ?l with [] => _ | _ :: _ => _ end] =>
                  destruct l
              | |- context [match ?n with 0 => _ | S _ => _ end] =>
                  destruct n
              end); stepped; simpl; try done; intros _;
      match goal with
      | |- context [<[k := ?w']> ws] =>
          pose proof (worker_weight_update ws _ w' k Hk) as Hsum;
          set (a := sum_list (wweight <$> ws)) in *;
          set (b := sum_list (wweight <$> <[k := w']> ws)) in *;
          clearbody a b
      end; cbv [wweight at_pc] in Hsum;
      rewrite ?length_app; simpl; lia.
Qed.

(** *** No deadlock *)

Lemma succeeded_le_finished (lg : list event) :
  length (succeeded lg) ≤ length (finished lg).
Proof. rewrite (finished_split lg), length_app. lia. Qed.

(** The [results] channel, made with room for [len(productLinks)]
    records, never holds more than the jobs done. *)
Lemma results_capacity (W : nat) (st : pool) :
  pool_inv W st →
  length (finalProducts st) + length (results st)
  + length (omap sending (workers st)) ≤ length (productLinks st).
Proof.
  intros [_ _ Hjobs Hres _ Hph].
  apply Permutation_length in Hjobs, Hres.
  rewrite length_fmap, !length_app in Hres. rewrite !length_app in Hjobs.
  pose proof (succeeded_le_finished (log st)).
  assert (length (enqueued st) ≤ length (productLinks st)).
  { unfold enqueued. destruct (main st); simpl; rewrite ?length_take; lia. }
  lia.
Qed.

Lemma omap_nonempty_lookup {A B : Type} (f : A → option B) (l : list A) :
  0 < length (omap f l) → ∃ k x y, l !! k = Some x ∧ f x = Some y.
Proof.
  induction l as [|a l IH]; csimpl; [lia|].
  destruct (f a) as [y|] eqn:Hfa.
  - intros _. by exists 0, a, y.
  - intros (k & x & y & Hk & Hx)%IH. by exists (S k), x, y.
Qed.

Lemma omap_lookup_positive {A B : Type} (f : A → option B) (l : list A)
    (k : nat) (x : A) (y : B) :
  l !! k = Some x → f x = Some y → 0 < length (omap f l).
Proof.
  intros Hk Hx. apply take_drop_middle in Hk. rewrite <- Hk.
  rewrite omap_app, length_app. csimpl. rewrite Hx. simpl. lia.
Qed.

(** Unless [Start] has drained the results, some thread can step. *)
Lemma progress (W : nat) (st : pool) :
  pool_inv W st → ¬ is_done st → ∃ t st', step W t st = Some st'.
Proof.
  intros Hinv Hnd. pose proof (results_capacity _ _ Hinv) as Hcap.
  destruct Hinv as [Hpn Hwg Hjobs Hres Hret Hph].
  destruct st as [c links pc js jc rs rc n ws lg pn].
  unfold step, is_done, phase_inv, enqueued in *. simpl in *. subst pn.
  destruct pc as [i|i [|link rest]| | | |fp|fp]; simpl in *.
  - exists TMain. simpl. destruct (i <=? W); eauto.
  - exists TMain. simpl. eauto.
  - exists TMain. simpl.
    destruct Hph as (Hrest & Hit & Hil & Hlen & -> & ->).
    destruct (productTarget <=? i); [eauto|].
    symmetry in Hrest. apply drop_cons_lookup in Hrest as [Hlink _].
    apply lookup_lt_Some in Hlink.
    apply Permutation_length in Hjobs.
    rewrite length_take, !length_app in Hjobs.
    destruct (Nat.ltb_spec (length js) (length links)); [eauto|lia].
  - exists TMain. simpl. destruct jc; eauto.
  - destruct Hph as (Hlen & -> & ->).
    destruct n as [|n]; [exists TMain; simpl; eauto|].
    destruct (omap_nonempty_lookup running ws) as (k & w & [] & Hk & Hw);
      [lia|].
    exists (TWorker k). simpl. rewrite Hk.
    destruct w as [id wpc0 tc]. unfold running in Hw. simpl in Hw.
    destruct wpc0 as [|url|product| |]; try done.
    + destruct js; eauto.
    + destruct (scrapeProductPage tc url) as [tc' [product [err|]]]; eauto.
    + assert (0 < length (omap sending ws))
        by by eapply (omap_lookup_positive sending _ _ _ product).
      destruct (Nat.ltb_spec (length rs) (length links)); [eauto|lia].
    + eauto.
  - exists TMain. simpl. destruct rc; eauto.
  - exists TMain. simpl. destruct Hph as (Hlen & -> & -> & ->).
    destruct rs; eauto.
  - done.
Qed.

(** Whatever the scheduler has done so far, the pool can run to the end
    of the drain loop. *)
Lemma pool_completes (W : nat) (st : pool) :
  pool_inv W st → ∃ sched st', run W sched st = Some st' ∧ is_done st'.
Proof.
  remember (measure W st) as m eqn:Hm. revert st Hm.
  induction m as [m IH] using lt_wf_ind. intros st -> Hinv.
  destruct (main st) as [i|i rest| | | |fp|fp] eqn:Hmain.
  7: { exists [], st. split; [done|]. unfold is_done. by rewrite Hmain. }
  all: destruct (progress W st Hinv) as (t & st1 & Hstep);
    [intros Hd; unfold is_done in Hd; by rewrite Hmain in Hd|].
  all: destruct (IH (measure W st1) (step_measure _ _ _ _ Hinv Hstep)
                   st1 eq_refl (step_inv _ _ _ _ Hinv Hstep))
         as (sched & st' & Hrun & Hdone).
  all: exists (t :: sched), st'; simpl; by rewrite Hstep.
Qed.

(** No schedule is longer than the measure allows. *)
Lemma run_bounded (W : nat) (sched : list thread) :
  ∀ st st', pool_inv W st → run W sched st = Some st' →
            length sched + measure W st' ≤ measure W st.
Proof.
  induction sched as [|t sched IH]; intros st st' Hinv; simpl.
  - intros [= <-]. lia.
  - destruct (step W t st) as [st1|] eqn:Hstep; [|done]. intros Hrun.
    pose proof (step_measure _ _ _ _ Hinv Hstep).
    pose proof (IH _ _ (step_inv _ _ _ _ Hinv Hstep) Hrun). lia.
Qed.

(** *** What holds once [Start] has drained the results *)

Lemma omap_running_nil (ws : list workerState) :
  length (omap running ws) = 0 → Forall (λ w, at_pc w = WDone) ws.
Proof.
  induction ws as [|w ws IH]; csimpl; [constructor|].
  unfold running at 1. destruct (at_pc w) eqn:Hw; simpl; try lia.
  intros Hl. constructor; auto.
Qed.

Lemma all_done_idle (ws : list workerState) :
  Forall (λ w, at_pc w = WDone) ws →
  omap scraping ws = [] ∧ omap sending ws = [].
Proof.
  induction 1 as [|w ws Hw _ [IH1 IH2]]; [done|]. csimpl.
  unfold scraping at 1, sending at 1. by rewrite Hw, IH1, IH2.
Qed.

Lemma done_summary (W : nat) (st : pool) (fp : list Product) :
  1 ≤ W → pool_inv W st → main st = MDone fp →
  Forall (λ w, at_pc w = WDone) (workers st)
  ∧ jobs st = []
  ∧ finished (log st) ≡ₚ take productTarget (productLinks st)
  ∧ URL <$> fp ≡ₚ succeeded (log st).
Proof.
  intros HW [Hpn Hwg Hjobs Hres Hret Hph] Hmain.
  unfold phase_inv, enqueued, finalProducts in *. rewrite Hmain in *.
  destruct Hph as (Hlen & Hjc & Hrc & Hwg0 & Hrs).
  rewrite Hwg0 in Hwg. symmetry in Hwg. apply omap_running_nil in Hwg.
  destruct (all_done_idle _ Hwg) as [Hs1 Hs2].
  assert (jobs st = []) as Hj.
  { destruct (workers st) as [|w ws]; [simpl in Hlen; lia|].
    apply Forall_cons in Hwg as [Hw _]. apply Forall_cons in Hret as [Hr _].
    by destruct (Hr (or_intror Hw)). }
  rewrite Hs1, Hj in Hjobs. rewrite Hs2, Hrs, !app_nil_r in Hres.
  simpl in Hjobs. done.
Qed.

(** The log only grows. *)
Lemma step_log (W : nat) (t : thread) (st st' : pool) :
  step W t st = Some st' → ∃ l, log st' = log st ++ l.
Proof.
  unfold step. destruct (panicked st); [done|].
  destruct st as [c links pc js jc rs rc n ws lg pn].
  destruct t as [|k]; simpl.
  - destruct pc as [i|i [|link rest]| | | |fp|fp]; simpl;
      repeat (match goal with
              | |- context [if ?b then _ else _] => destruct b
              | |- context [match ?l with [] => _ | _ :: _ => _ end] =>
                  destruct l
              end); stepped; simpl; exists []; by rewrite app_nil_r.
  - destruct (ws !! k) as [[id wpc0 tc]|]; [|done].
    destruct wpc0; simpl;
      repeat (match goal with
              | |- context [let (_, _) := ?x in _] => destruct x
              | |- context [match ?o with Some _ => _ | None => _ end] =>
                  destruct o
              | |- context [if ?b then _ else _] => destruct b
              | |- context [match ?l with [] => _ | _ :: _ => _ end] =>
                  destruct l
              | |- context [match ?n with 0 => _ | S _ => _ end] =>
                  destruct n
              end); stepped; simpl;
      first [by eexists [_] | exists []; by rewrite app_nil_r].
Qed.

Lemma run_log (W : nat) (sched : list thread) :
  ∀ st st', run W sched st = Some st' → ∃ l, log st' = log st ++ l.
Proof.
  induction sched as [|t sched IH]; intros st st'; simpl.
  - intros [= <-]. exists []. by rewrite app_nil_r.
  - destruct (step W t st) as [st1|] eqn:Hstep; [|done].
    intros (l2 & ->)%IH. apply step_log in Hstep as (l1 & ->).
    exists (l1 ++ l2). by rewrite app_assoc.
Qed.

(** With distinct links, no job is in two places at once. *)
Lemma jobs_NoDup (W : nat) (st : pool) :
  pool_inv W st → NoDup (productLinks st) →
  NoDup (jobs st ++ omap scraping (workers st)
         ++ failed (log st) ++ succeeded (log st)).
Proof.
  intros [_ _ Hjobs _ _ _] Hnd.
  rewrite <- finished_split, <- Hjobs. unfold enqueued.
  destruct (main st); [apply NoDup_nil_2|..];
    exact (sublist_NoDup _ _ Hnd (sublist_take _ _)).
Qed.

(** What a failing scrape does to the pool, and to it alone. *)
Lemma worker_step_scrape_error (W k id : nat) (st : pool) (url : string)
    (tc tc' : session) (product : Product) (err : error) :
  panicked st = None →
  workers st !! k = Some (mkWorker id (WScrape url) tc) →
  scrapeProductPage tc url = (tc', (product, Some err)) →
  step W (TWorker k) st
  = Some (mkPool (ctx st) (productLinks st) (main st) (jobs st)
            (jobsClosed st) (results st) (resultsClosed st) (wg st)
            (<[k := mkWorker id WRecv tc']> (workers st))
            (log st ++ [LogError id url err]) None).
Proof.
  destruct st as [c links pc js jc rs rc n ws lg pn]. simpl.
  intros -> Hk Hs. unfold step. simpl. rewrite Hk. simpl. by rewrite Hs.
Qed.

End Pool.


(** *** The claims about the pool *)

Lemma sampleLinks_length (n : nat) : length (sampleLinks n) = n.
Proof. unfold sampleLinks. by rewrite length_fmap, length_seq. Qed.

(** C1, as the specification states it, fails: of 251 discovered links
    the pool enqueues and processes 250, whatever the schedule, and
    collects fewer than 251 records although no job need fail. *)
Lemma pool_target_counterexample :
  length (sampleLinks 251) = 251
  ∧ (∃ sched st,
       @run (toyRenderer [] [] []) numWorkers sched
         (@pool_init (toyRenderer [] [] []) (mkToyPage "" 0)
            (sampleLinks 251)) = Some st
       ∧ is_done st)
  ∧ ∀ sched st,
      @run (toyRenderer [] [] []) numWorkers sched
        (@pool_init (toyRenderer [] [] []) (mkToyPage "" 0)
            (sampleLinks 251)) = Some st →
      is_done st →
      length (finished (log st)) = 250
      ∧ length (finished (log st)) ≠ length (sampleLinks 251)
      ∧ length (finalProducts st) < length (sampleLinks 251).
Proof.
  split; [apply sampleLinks_length|]. split.
  { apply pool_completes, pool_init_inv. }
  intros sched st Hrun Hdone.
  pose proof (reachable_inv _ _ _ _ _ Hrun) as Hinv.
  pose proof (run_productLinks _ _ _ _ Hrun) as Hlinks. simpl in Hlinks.
  unfold is_done, finalProducts in *.
  destruct (main st) as [| | | | | |fp] eqn:Hmain; try done.
  destruct (done_summary numWorkers st fp) as (_ & _ & Hfin & Hfp);
    [unfold numWorkers; lia|done|done|].
  apply Permutation_length in Hfin, Hfp.
  rewrite length_fmap in Hfp.
  rewrite Hlinks, length_take, sampleLinks_length in Hfin.
  pose proof (succeeded_le_finished (log st)).
  rewrite sampleLinks_length.
  replace productTarget with 250 in Hfin by reflexivity. lia.
Qed.

(** C1 (amended): for every duplicate-free link list of size N and every
    worker count W of at least one, the pool runs to completion (a
    complete run exists, no run is longer than a bound fixed at the
    start, and every run can be continued to the end), and at the end of
    every run it has enqueued and processed exactly the first
    min(N, 250) links, each once; the collected records are those of the
    jobs that succeeded, so there are at most min(N, 250) of them,
    strictly fewer exactly when some processed job failed, and no record
    occurs twice. *)
Theorem pool_processes_target `{R : Renderer} (W : nat) (c : session)
    (links : list string) :
  1 ≤ W → NoDup links →
  (∃ sched st, run W sched (pool_init c links) = Some st ∧ is_done st)
  ∧ (∀ sched st,
       run W sched (pool_init c links) = Some st →
       length sched ≤ measure W (pool_init c links)
       ∧ ∃ sched' st',
           run W (sched ++ sched') (pool_init c links) = Some st'
           ∧ is_done st')
  ∧ ∀ sched st,
      run W sched (pool_init c links) = Some st → is_done st →
      enqueued st = take productTarget links
      ∧ jobs st = []
      ∧ finished (log st) ≡ₚ take productTarget links
      ∧ length (finished (log st)) = length links `min` productTarget
      ∧ URL <$> finalProducts st ≡ₚ succeeded (log st)
      ∧ length (finalProducts st) ≤ length links `min` productTarget
      ∧ (length (finalProducts st) < length links `min` productTarget
         ↔ failed (log st) ≠ [])
      ∧ NoDup (finalProducts st).
Proof.
  intros HW Hnd. split; [apply pool_completes, pool_init_inv|]. split.
  { intros sched st Hrun. split.
    - pose proof (run_bounded _ _ _ _ (pool_init_inv W c links) Hrun). lia.
    - destruct (pool_completes W st (reachable_inv _ _ _ _ _ Hrun))
        as (sched' & st' & Hrun' & Hdone).
      exists sched', st'. by rewrite (run_app _ _ _ _ _ Hrun). }
  intros sched st Hrun Hdone.
  pose proof (reachable_inv _ _ _ _ _ Hrun) as Hinv.
  pose proof (run_productLinks _ _ _ _ Hrun) as Hlinks. simpl in Hlinks.
  pose proof (jobs_NoDup _ _ Hinv) as Hnd'. rewrite Hlinks in Hnd'.
  specialize (Hnd' Hnd).
  unfold is_done, finalProducts, enqueued in *.
  destruct (main st) as [| | | | | |fp] eqn:Hmain; try done.
  destruct (done_summary W st fp HW Hinv Hmain) as (_ & Hj & Hfin & Hfp).
  rewrite Hlinks in *.
  assert (length (finished (log st)) = length links `min` productTarget)
    as Hlen.
  { rewrite Hfin, length_take. lia. }
  assert (length fp + length (failed (log st))
          = length links `min` productTarget) as Hsum.
  { rewrite <- Hlen, (finished_split (log st)), length_app.
    rewrite <- Hfp, length_fmap. lia. }
  repeat split; try done; try lia.
  - intros Hlt Hnil. rewrite Hnil in Hsum. simpl in Hsum. lia.
  - intros Hne. destruct (failed (log st)); [done|]. simpl in Hsum. lia.
  - apply (NoDup_fmap_1 URL). rewrite Hfp.
    rewrite !app_assoc in Hnd'. by apply NoDup_app in Hnd' as (_ & _ & ?).
Qed.

(** Two workers over three links. *)
Lemma pool_processes_target_witness :
  (∃ sched st,
     @run (toyRenderer [] [] []) 2 sched
       (@pool_init (toyRenderer [] [] []) (mkToyPage "" 0)
          (sampleLinks 3)) = Some st
     ∧ is_done st)
  ∧ (∀ sched st,
       @run (toyRenderer [] [] []) 2 sched
         (@pool_init (toyRenderer [] [] []) (mkToyPage "" 0)
           (sampleLinks 3)) = Some st →
       length sched
       ≤ measure 2 (@pool_init (toyRenderer [] [] []) (mkToyPage "" 0)
                      (sampleLinks 3))
       ∧ ∃ sched' st',
           @run (toyRenderer [] [] []) 2 (sched ++ sched')
             (@pool_init (toyRenderer [] [] []) (mkToyPage "" 0)
               (sampleLinks 3)) = Some st'
           ∧ is_done st')
  ∧ ∀ sched st,
      @run (toyRenderer [] [] []) 2 sched
        (@pool_init (toyRenderer [] [] []) (mkToyPage "" 0)
          (sampleLinks 3)) = Some st →
      is_done st →
      enqueued st = take productTarget (sampleLinks 3)
      ∧ jobs st = []
      ∧ finished (log st) ≡ₚ take productTarget (sampleLinks 3)
      ∧ length (finished (log st))
        = length (sampleLinks 3) `min` productTarget
      ∧ URL <$> finalProducts st ≡ₚ succeeded (log st)
      ∧ length (finalProducts st)
        ≤ length (sampleLinks 3) `min` productTarget
      ∧ (length (finalProducts st)
         < length (sampleLinks 3) `min` productTarget
         ↔ failed (log st) ≠ [])
      ∧ NoDup (finalProducts st).
Proof.
  apply (@pool_processes_target (toyRenderer [] [] []) 2
           (mkToyPage "" 0) (sampleLinks 3)).
  - lia.
  - apply (bool_decide_unpack (NoDup (sampleLinks 3))). vm_compute. exact I.
Defined.


(** C4: when an action of the extraction sequence fails, whichever it is
    (the page-ready wait, the size-chart click, ...), the call stops
    there, returns the error with no record, and leaves the session as
    the failing action left it (nothing is run again); the worker that
    made the call sends nothing and turns to its next job. *)
Theorem scrape_aborts_on_failing_step `{R : Renderer}
    (s s1 s2 : session) (url : string)
    (pre post : list (task scrapeVars)) {T : Type} (a : action T)
    (store : T → scrapeVars → scrapeVars) (l1 : scrapeVars) (e : error) :
  scrapeActions url = pre ++ Do a store :: post →
  Run s pre (initialVars url) = (s1, l1, None) →
  exec s1 a = (s2, inl e) →
  scrapeProductPage s url
  = (s2, (zeroProduct, Some ("browser actions failed: " +:+ e)))
  ∧ ∀ (W k id : nat) (st : pool),
      panicked st = None →
      workers st !! k = Some (mkWorker id (WScrape url) s) →
      ∃ st', step W (TWorker k) st = Some st'
             ∧ results st' = results st
             ∧ workers st' !! k = Some (mkWorker id WRecv s2)
             ∧ omap sending (workers st') = omap sending (workers st).
Proof.
  intros Hsplit Hpre Hfail.
  pose proof (scrape_failing_step _ _ _ _ _ _ _ _ _ _ Hsplit Hpre Hfail)
    as Hscrape.
  split; [done|]. intros W k id st Hpn Hk.
  eexists. split; [by eapply worker_step_scrape_error|]. simpl.
  split; [done|]. split.
  - apply list_lookup_insert_eq. by eapply lookup_lt_Some.
  - rewrite <- (take_drop_middle _ _ _ Hk) at 2.
    rewrite insert_take_drop by by eapply lookup_lt_Some.
    by rewrite !omap_app.
Qed.

(** A page that never shows its title: the page-ready wait fails. *)
Lemma scrape_aborts_on_failing_step_witness :
  @scrapeProductPage (toyRenderer ["https://shop.adidas.jp/products/i/"] [] [])
    (mkToyPage "" 0) "https://shop.adidas.jp/products/i/"
  = (mkToyPage "https://shop.adidas.jp/products/i/" 2,
     (zeroProduct,
      Some "browser actions failed: context deadline exceeded"))
  ∧ ∀ (W k id : nat)
      (st : @pool (toyRenderer ["https://shop.adidas.jp/products/i/"] [] [])),
      panicked st = None →
      workers st !! k
      = Some (@mkWorker
                (toyRenderer ["https://shop.adidas.jp/products/i/"] [] [])
                id (WScrape "https://shop.adidas.jp/products/i/")
                (mkToyPage "" 0)) →
      ∃ st', step W (TWorker k) st = Some st'
             ∧ results st' = results st
             ∧ workers st' !! k
               = Some (@mkWorker
                         (toyRenderer ["https://shop.adidas.jp/products/i/"]
                            [] [])
                         id WRecv
                         (mkToyPage "https://shop.adidas.jp/products/i/" 2))
             ∧ omap sending (workers st') = omap sending (workers st).
Proof.
  pose (R := toyRenderer ["https://shop.adidas.jp/products/i/"] [] []).
  pose (url := "https://shop.adidas.jp/products/i/").
  exact (@scrape_aborts_on_failing_step R
           (mkToyPage "" 0) (mkToyPage url 1) (mkToyPage url 2) url
           (take 1 (@scrapeActions R url)) (drop 2 (@scrapeActions R url))
           unit (WaitReady "h1.p-article__name") skip (initialVars url)
           "context deadline exceeded"
           eq_refl eq_refl eq_refl).
Defined.

(** C5: a worker whose job fails logs the error and goes back to its
    receive; nothing else in the pool changes: no record is sent, the
    other goroutines, both channels and the wait group are as before,
    and the program has not panicked.  From then on the failed URL is
    never again on the queue or in a worker's hands, no record of it
    ever reaches the results, and the pool still runs to completion. *)
Theorem worker_failure_is_local `{R : Renderer} (W : nat) (c : session)
    (links : list string) (sched : list thread) (st : pool) (k id : nat)
    (url : string) (tc tc' : session) (product : Product) (err : error) :
  NoDup links →
  run W sched (pool_init c links) = Some st →
  workers st !! k = Some (mkWorker id (WScrape url) tc) →
  scrapeProductPage tc url = (tc', (product, Some err)) →
  ∃ st',
    step W (TWorker k) st = Some st'
    ∧ log st' = log st ++ [LogError id url err]
    ∧ workers st' = <[k := mkWorker id WRecv tc']> (workers st)
    ∧ results st' = results st ∧ jobs st' = jobs st
    ∧ jobsClosed st' = jobsClosed st
    ∧ resultsClosed st' = resultsClosed st
    ∧ wg st' = wg st ∧ main st' = main st
    ∧ panicked st' = None
    ∧ ∀ sched' st'',
        run W sched' st' = Some st'' →
        panicked st'' = None
        ∧ (url ∉ jobs st'')
        ∧ (url ∉ omap scraping (workers st''))
        ∧ (url ∉ URL <$> (finalProducts st'' ++ results st''
                           ++ omap sending (workers st'')))
        ∧ ∃ sched2 st3, run W sched2 st'' = Some st3 ∧ is_done st3.
Proof.
  intros Hnd Hrun Hk Hs.
  pose proof (reachable_inv _ _ _ _ _ Hrun) as Hinv.
  pose proof (worker_step_scrape_error W k id st url tc tc' product err
                (inv_panicked _ _ Hinv) Hk Hs) as Hstep.
  eexists. split; [exact Hstep|]. simpl. repeat (split; [done|]).
  intros sched' st'' Hrun'.
  assert (run W (sched ++ [TWorker k] ++ sched') (pool_init c links)
          = Some st'') as Hall.
  { rewrite (run_app _ _ _ _ _ Hrun). simpl. by rewrite Hstep. }
  pose proof (reachable_inv _ _ _ _ _ Hall) as Hinv''.
  pose proof (run_productLinks _ _ _ _ Hall) as Hlinks. simpl in Hlinks.
  pose proof (jobs_NoDup _ _ Hinv'') as Hnd''. rewrite Hlinks in Hnd''.
  specialize (Hnd'' Hnd).
  apply run_log in Hrun' as (l & Hlog). simpl in Hlog.
  assert (url ∈ failed (log st'')) as Hfailed.
  { rewrite Hlog. unfold failed. rewrite !omap_app. simpl.
    rewrite !elem_of_app, list_elem_of_singleton. auto. }
  split; [apply (inv_panicked _ _ Hinv'')|].
  apply NoDup_app in Hnd'' as (_ & Hjobs & Hnd'').
  apply NoDup_app in Hnd'' as (_ & Hscr & Hnd'').
  apply NoDup_app in Hnd'' as (_ & Hfs & _).
  split; [|split; [|split]].
  - intros Hin. apply (Hjobs _ Hin). rewrite !elem_of_app. auto.
  - intros Hin. apply (Hscr _ Hin). rewrite !elem_of_app. auto.
  - rewrite (inv_results _ _ Hinv''). by apply Hfs.
  - by apply (pool_completes W).
Qed.

(** Worker 1 holds the first link, whose page never gets ready. *)
Lemma worker_failure_is_local_witness :
  ∃ st st',
    toyRun (sampleLinks 1) 2 2 (take 8 toySchedule) = Some st
    ∧ step 2 (TWorker 0) st = Some st'
    ∧ log st' = log st ++ [LogError 1 "https://shop.adidas.jp/products/i/"
                   "browser actions failed: context deadline exceeded"]
    ∧ results st' = results st
    ∧ panicked st' = None.
Proof.
  pose (R := toyRenderer (sampleLinks 1) [] []).
  pose (st := default (@pool_init R (mkToyPage "" 0) (sampleLinks 2))
                (toyRun (sampleLinks 1) 2 2 (take 8 toySchedule))).
  destruct (@worker_failure_is_local R 2 (mkToyPage "" 0) (sampleLinks 2)
              (take 8 toySchedule) st 0 1
              "https://shop.adidas.jp/products/i/"
              (mkToyPage "" 0)
              (mkToyPage "https://shop.adidas.jp/products/i/" 2)
              zeroProduct
              "browser actions failed: context deadline exceeded")
    as (st' & Hstep & Hlog & _ & Hres & _ & _ & _ & _ & _ & Hpn & _).
  - apply (bool_decide_unpack (NoDup (sampleLinks 2))). vm_compute. exact I.
  - vm_compute. reflexivity.
  - vm_compute. reflexivity.
  - vm_compute. reflexivity.
  - exists st, st'. split; [vm_compute; reflexivity|]. done.
Defined.

(** C6: in every state of every execution, the program has not panicked
    (so nothing was sent on a closed channel), and once the results
    channel is closed the wait-group counter is zero and every one of
    the W workers has returned; a worker that still holds a record to
    send finds the channel open. *)
Theorem results_closed_after_workers_done `{R : Renderer} (W : nat)
    (c : session) (links : list string) (sched : list thread) (st : pool) :
  run W sched (pool_init c links) = Some st →
  panicked st = None
  ∧ (resultsClosed st = true →
     wg st = 0 ∧ length (workers st) = W
     ∧ Forall (λ w, at_pc w = WDone) (workers st))
  ∧ ∀ (k : nat) (w : workerState),
      workers st !! k = Some w → at_pc w ≠ WDone →
      resultsClosed st = false.
Proof.
  intros Hrun. pose proof (reachable_inv _ _ _ _ _ Hrun) as Hinv.
  destruct Hinv as [Hpn Hwg _ _ _ Hph].
  assert (resultsClosed st = true →
          wg st = 0 ∧ length (workers st) = W
          ∧ Forall (λ w, at_pc w = WDone) (workers st)) as Hclosed.
  { intros Hrc. unfold phase_inv in Hph.
    assert (wg st = 0 ∧ length (workers st) = W) as [H0 Hlen].
    { destruct (main st); intuition congruence. }
    repeat split; try done. apply omap_running_nil. congruence. }
  split; [done|]. split; [done|].
  intros k w Hk Hw. destruct (resultsClosed st) eqn:Hrc; [|done].
  destruct (Hclosed eq_refl) as (_ & _ & Hall).
  by pose proof (Forall_lookup_1 _ _ _ _ Hall Hk).
Qed.

(** At the end of a complete run of two workers over two links. *)
Lemma results_closed_after_workers_done_witness :
  ∃ st,
    toyRun [] 2 2 toySchedule = Some st
    ∧ resultsClosed st = true
    ∧ panicked st = None
    ∧ (resultsClosed st = true →
       wg st = 0 ∧ length (workers st) = 2
       ∧ Forall (λ w, at_pc w = WDone) (workers st)).
Proof.
  pose (R := toyRenderer [] [] []).
  pose (st := default (@pool_init R (mkToyPage "" 0) (sampleLinks 2))
                (toyRun [] 2 2 toySchedule)).
  exists st. split; [vm_compute; reflexivity|].
  split; [vm_compute; reflexivity|].
  destruct (@results_closed_after_workers_done R 2 (mkToyPage "" 0)
              (sampleLinks 2) toySchedule st) as (Hpn & Hclosed & _).
  - vm_compute. reflexivity.
  - split; [exact Hpn|exact Hclosed].
Defined.


(** ** The output rows *)


(** ** The remote-renderer path *)

Section RemoteFacts.
Context `{H : ZenRows.Host}.

Lemma scanXHR_skips (pre rest : list ZenRows.XHRResponse) :
  Forall (λ y, ¬ ZenRows.usable y) pre →
  ZenRows.scanXHR (pre ++ rest) = ZenRows.scanXHR rest.
Proof.
  induction 1 as [|y pre Hy _ IH]; [done|]. simpl.
  destruct (Contains (ZenRows.URL y) "recs/api/products") eqn:Hc; [|done].
  destruct (ZenRows.UnmarshalRecommendations (ZenRows.Body y)) as [e|r] eqn:Hu;
    [done|].
  destruct Hy. split; eauto.
Qed.

Lemma scanXHR_Some (xhr : list ZenRows.XHRResponse)
    (recs : list (ZenRows.ProductDetails ZenRows.float64)
            * list ZenRows.Breadcrumb) :
  ZenRows.scanXHR xhr = Some recs →
  ∃ x, x ∈ xhr
       ∧ Contains (ZenRows.URL x) "recs/api/products" = true
       ∧ ZenRows.UnmarshalRecommendations (ZenRows.Body x) = inr recs.
Proof.
  induction xhr as [|y xhr IH]; [done|]. simpl.
  destruct (Contains (ZenRows.URL y) "recs/api/products") eqn:Hc.
  - destruct (ZenRows.UnmarshalRecommendations (ZenRows.Body y))
      as [e|r] eqn:Hu.
    + intros (x & ? & ?)%IH. exists x. split; [by right|done].
    + intros [= ->]. exists y. split; [by left|done].
  - intros (x & ? & ?)%IH. exists x. split; [by right|done].
Qed.

(** C7: once the capture is read and decoded, the product data are those
    of the first exchange whose URL contains [recs/api/products] and
    whose body parses, wherever it stands in the list; the data returned
    always come from such an exchange; and when there is none, an error
    is returned. *)
Theorem getProductDataFromFile_scans_by_url (filename rawBody : string)
    (zenRowsResp : ZenRows.ZenRowsOverallResponse) :
  ZenRows.ReadFile filename = inr rawBody →
  ZenRows.UnmarshalCapture rawBody = inr zenRowsResp →
  (∀ pre x post products breadcrumbs,
     ZenRows.XHR zenRowsResp = pre ++ x :: post →
     Forall (λ y, ¬ ZenRows.usable y) pre →
     Contains (ZenRows.URL x) "recs/api/products" = true →
     ZenRows.UnmarshalRecommendations (ZenRows.Body x)
     = inr (products, breadcrumbs) →
     ZenRows.getProductDataFromFile filename
     = (products, breadcrumbs, None))
  ∧ (∀ products breadcrumbs,
       ZenRows.getProductDataFromFile filename
       = (products, breadcrumbs, None) →
       ∃ x, x ∈ ZenRows.XHR zenRowsResp
            ∧ Contains (ZenRows.URL x) "recs/api/products" = true
            ∧ ZenRows.UnmarshalRecommendations (ZenRows.Body x)
              = inr (products, breadcrumbs))
  ∧ (Forall (λ y, ¬ ZenRows.usable y) (ZenRows.XHR zenRowsResp) →
     ZenRows.getProductDataFromFile filename
     = ([], [], Some ZenRows.ErrNoProductData)).
Proof.
  intros Hread Hcap. unfold ZenRows.getProductDataFromFile.
  rewrite Hread, Hcap. split; [|split].
  - intros pre x post products breadcrumbs -> Hpre Hc Hu.
    rewrite (scanXHR_skips _ _ Hpre). simpl. by rewrite Hc, Hu.
  - intros products breadcrumbs.
    destruct (ZenRows.scanXHR (ZenRows.XHR zenRowsResp))
      as [[ps bs]|] eqn:Hscan; [|done].
    intros [= -> ->]. by apply scanXHR_Some.
  - intros Hnone.
    rewrite <- (app_nil_r (ZenRows.XHR zenRowsResp)).
    by rewrite (scanXHR_skips _ _ Hnone).
Qed.

(** C10: in every data row the remote path writes, the column
    [SizeDetails] holds what [AvailableSizes] holds: the sizes joined by
    a comma and a blank, or [N/A] when that text is empty, as it is for a
    product without sizes. *)
Theorem remote_row_SizeDetails_is_AvailableSizes (jsonFileName : string)
    (rows : list (list string)) (i : nat) (row : list string) :
  ZenRows.ProcessJSONAndWriteToCSV jsonFileName = (Some rows, None) →
  rows !! S i = Some row →
  rows !! 0 = Some ZenRows.header
  ∧ column "SizeDetails" ZenRows.header row
    = column "AvailableSizes" ZenRows.header row
  ∧ ∃ products breadcrumbs product,
      ZenRows.getProductDataFromFile jsonFileName
      = (products, breadcrumbs, None)
      ∧ products !! i = Some product
      ∧ column "AvailableSizes" ZenRows.header row
        = Some (ZenRows.orNA (Join (ZenRows.Sizes product) ", "))
      ∧ (ZenRows.Sizes product = [] →
         column "SizeDetails" ZenRows.header row = Some "N/A").
Proof.
  unfold ZenRows.ProcessJSONAndWriteToCSV.
  destruct (ZenRows.getProductDataFromFile jsonFileName)
    as [[products breadcrumbs] [err|]]; [done|].
  destruct (length products =? 0); [done|].
  destruct (ZenRows.MkdirAll "csv"); [done|].
  destruct (ZenRows.Create "csv/products.csv"); [done|].
  intros [= <-]. simpl. rewrite list_lookup_fmap.
  destruct (products !! i) as [product|] eqn:Hi; [|done].
  intros [= <-]. split; [done|]. split; [done|].
  exists products, breadcrumbs, product. repeat split; try done.
  intros Hs. simpl. by rewrite Hs.
Qed.

End RemoteFacts.

(** The data sit in the third exchange; the second has the URL of the
    endpoint and a body that does not parse. *)
Lemma getProductDataFromFile_scans_by_url_witness :
  @ZenRows.getProductDataFromFile toyHost "sample.json"
  = ([toyDetails], [ZenRows.mkBreadcrumb "Men" "/men/" "link"], None).
Proof.
  destruct (@getProductDataFromFile_scans_by_url toyHost "sample.json"
              "capture"
              (ZenRows.mkCapture "<html/>"
                 [ ZenRows.mkXHR "https://shop.adidas.jp/f/v1/pub/ping" "{}";
                   ZenRows.mkXHR "https://x/recs/api/products?n=1"
                     "<!doctype";
                   ZenRows.mkXHR "https://x/recs/api/products?n=2" "recs" ])
              eq_refl eq_refl) as (Hfound & _ & _).
  apply (Hfound
           [ ZenRows.mkXHR "https://shop.adidas.jp/f/v1/pub/ping" "{}";
             ZenRows.mkXHR "https://x/recs/api/products?n=1" "<!doctype" ]
           (ZenRows.mkXHR "https://x/recs/api/products?n=2" "recs") []).
  - reflexivity.
  - repeat constructor; intros [Hc [r Hr]]; vm_compute in Hc, Hr;
      discriminate.
  - reflexivity.
  - reflexivity.
Defined.

(** The row of a product with two sizes. *)
Lemma remote_row_SizeDetails_is_AvailableSizes_witness :
  column "SizeDetails" ZenRows.header
    (@ZenRows.productRow toyHost "Men" toyDetails)
  = Some "26.0, 26.5"
  ∧ column "AvailableSizes" ZenRows.header
      (@ZenRows.productRow toyHost "Men" toyDetails)
    = Some "26.0, 26.5".
Proof.
  destruct (@remote_row_SizeDetails_is_AvailableSizes toyHost "sample.json"
              [ ZenRows.header;
                @ZenRows.productRow toyHost "Men" toyDetails ]
              0 (@ZenRows.productRow toyHost "Men" toyDetails)
              eq_refl eq_refl) as (_ & Heq & _).
  split; [rewrite Heq|]; reflexivity.
Defined.


(** * More about the pipeline

    ** The pool, step by step *)

#[local] Opaque productTarget.

(** The state a step leads to. *)
Ltac stepped :=
  let Hst := fresh "Hst" in
  intros Hst; first [discriminate Hst | apply (inj Some) in Hst; subst].

Section PoolSteps.
Context `{R : Renderer}.



(** What one step does to the records: it moves them, or a scrape that
    succeeded adds its record. *)
Lemma step_records_effect (W : nat) (t : thread) (st st' : pool) :
  pool_inv W st → step W t st = Some st' →
  records st' ≡ₚ records st
  ∨ ∃ tc url tc' product,
      scrapeProductPage tc url = (tc', (product, None))
      ∧ records st' ≡ₚ product :: records st.
Proof.
  intros Hinv Hstep. pose proof (step_inv _ _ _ _ Hinv Hstep) as Hinv'.
  apply inv_panicked in Hinv'. revert Hstep Hinv'.
  unfold step. rewrite (inv_panicked _ _ Hinv). clear Hinv.
  destruct st as [c links pc js jc rs rc n ws lg pn].
  unfold records, finalProducts. destruct t as [|k]; simpl in *.
  - destruct pc as [i|i [|link rest]| | | |fp|fp]; simpl;
      repeat (match goal with
              | |- context [if ?b then _ else _] => destruct b eqn:?
              | |- context [match ?l with [] => _ | _ :: _ => _ end] =>
                  destruct l
              end); stepped; simpl; try done; intros _; left;
      try done.
    all: first [by rewrite omap_app, app_nil_r | solve_Permutation].
  - destruct (ws !! k) as [[id wpc0 tc]|] eqn:Hk; [|done].
    destruct (worker_update _ _ _ Hk) as (rest & Hws & Hupd).
    destruct wpc0 as [|url|product| |]; simpl.
    + destruct js; [destruct jc|]; stepped; simpl; intros _; left;
        by rewrite Hupd, Hws.
    + destruct (scrapeProductPage tc url) as [tc' [product [err|]]] eqn:Hs;
        stepped; simpl; intros _.
      * left. by rewrite Hupd, Hws.
      * right. exists tc, url, tc', product. split; [done|].
        rewrite Hupd, Hws. unfold sending. simpl. solve_Permutation.
    + destruct rc; [by stepped|].
      destruct (length rs <? length links); stepped. simpl. intros _. left.
      rewrite Hupd, Hws. unfold sending. simpl. solve_Permutation.
    + destruct n; [by stepped|]. stepped. simpl. intros _. left.
      by rewrite Hupd, Hws.
    + done.
Qed.

(** A property that every freshly scraped record has, every record of a
    reachable state has. *)
Lemma records_Forall (Q : Product → Prop) (W : nat) (sched : list thread) :
  (∀ tc url tc' product,
     scrapeProductPage tc url = (tc', (product, None)) → Q product) →
  ∀ st st', pool_inv W st → Forall Q (records st) →
            run W sched st = Some st' → Forall Q (records st').
Proof.
  intros HQ. induction sched as [|t sched IH]; intros st st' Hinv Hall; simpl.
  - by intros [= <-].
  - destruct (step W t st) as [st1|] eqn:Hstep; [|done].
    apply IH; [by eapply step_inv|].
    destruct (step_records_effect _ _ _ _ Hinv Hstep)
      as [->|(tc & url & tc' & product & Hs & ->)]; [done|].
    constructor; eauto.
Qed.


End PoolSteps.


(** ** The pool: channels, wait group, order *)

#[local] Opaque productTarget.

Section PoolMore.
Context `{R : Renderer}.

(** X1: both channels are made with room for [len(productLinks)]
    elements, so no send ever blocks: in every reachable state [Start]
    can put the next link on [jobs], and a worker that holds a record can
    put it on [results]. *)
Theorem channel_sends_never_block (W : nat) (c : session)
    (links : list string) (sched : list thread) (st : pool) :
  run W sched (pool_init c links) = Some st →
  (∀ i link rest,
     main st = MFill i (link :: rest) → i < productTarget →
     ∃ st', step W TMain st = Some st'
            ∧ jobs st' = jobs st ++ [link]
            ∧ main st' = MFill (S i) rest)
  ∧ ∀ k w product,
      workers st !! k = Some w → at_pc w = WSend product →
      ∃ st', step W (TWorker k) st = Some st'
             ∧ results st' = results st ++ [product]
             ∧ workers st' !! k = Some (mkWorker (wid w) WRecv (taskCtx w)).
Proof.
  intros Hrun. pose proof (reachable_inv _ _ _ _ _ Hrun) as Hinv.
  pose proof (results_capacity _ _ Hinv) as Hcap.
  destruct Hinv as [Hpn Hwg Hjobs Hres Hret Hph].
  destruct st as [c0 links0 pc js jc rs rc n ws lg pn].
  unfold step, phase_inv, enqueued in *. simpl in *. subst pn. split.
  - intros i link rest -> Hi.
    destruct Hph as (Hrest & Hit & Hil & Hlen & -> & ->). simpl.
    destruct (Nat.leb_spec productTarget i); [lia|].
    symmetry in Hrest. apply drop_cons_lookup in Hrest as [Hlink _].
    apply lookup_lt_Some in Hlink. apply Permutation_length in Hjobs.
    rewrite length_take, !length_app in Hjobs.
    destruct (Nat.ltb_spec (length js) (length links0)); [|lia].
    eexists. split; [reflexivity|]. by simpl.
  - intros k [id wpc0 tc] product Hk Hw. simpl in Hw. subst wpc0.
    rewrite Hk.
    assert (0 < n) as Hn.
    { rewrite Hwg. by eapply (omap_lookup_positive running _ _ _ ()). }
    assert (rc = false) as ->.
    { destruct rc; [|done]. destruct pc; simpl in Hph; intuition (try congruence; lia). }
    assert (0 < length (omap sending ws))
      by by eapply (omap_lookup_positive sending _ _ _ product).
    destruct (Nat.ltb_spec (length rs) (length links0)); [|lia].
    eexists. split; [done|]. simpl. split; [done|].
    apply list_lookup_insert_eq. by eapply lookup_lt_Some.
Qed.







(** X5: at the end of a run the collected records are exactly those of
    the jobs logged as successes: each carries one of the first 250
    links as its URL and the identifier derived from that URL, and every
    success has its record. *)
Theorem collected_records_match_successes (W : nat) (c : session)
    (links : list string) (sched : list thread) (st : pool) :
  1 ≤ W →
  run W sched (pool_init c links) = Some st → is_done st →
  (∀ product, product ∈ finalProducts st →
     ProductID product = productID (URL product)
     ∧ URL product ∈ succeeded (log st)
     ∧ URL product ∈ take productTarget links)
  ∧ ∀ url, url ∈ succeeded (log st) →
      ∃ product, product ∈ finalProducts st ∧ URL product = url.
Proof.
  intros HW Hrun Hdone.
  pose proof (reachable_inv _ _ _ _ _ Hrun) as Hinv.
  pose proof (run_productLinks _ _ _ _ Hrun) as Hlinks. simpl in Hlinks.
  assert (Forall (λ product, ProductID product = productID (URL product))
            (records st)) as Hrec.
  { eapply (records_Forall _ W sched); [|apply pool_init_inv| |exact Hrun].
    - intros tc url tc' product [-> ->]%scrape_success_URL. done.
    - constructor. }
  unfold is_done, finalProducts, records in *.
  destruct (main st) as [| | | | | |fp] eqn:Hmain; try done.
  destruct (done_summary W st fp HW Hinv Hmain) as (_ & _ & Hfin & Hfp).
  rewrite Hlinks in Hfin.
  apply Forall_app in Hrec as [Hrec _]. rewrite Forall_forall in Hrec.
  split.
  - intros product Hin.
    split; [apply Hrec; unfold finalProducts; by rewrite Hmain|].
    assert (URL product ∈ succeeded (log st)) as Hs.
    { rewrite <- Hfp. by apply list_elem_of_fmap_2. }
    split; [done|]. rewrite <- Hfin, (finished_split (log st)).
    apply elem_of_app. by right.
  - intros url Hin. rewrite <- Hfp in Hin.
    apply list_elem_of_fmap in Hin as (product & -> & Hin). eauto.
Qed.

End PoolMore.


#[local] Opaque productTarget.

(** Three links on the queue, or two of them and one in a worker's hands. *)
Lemma channel_sends_never_block_witness :
  ∃ st',
    step 2 TMain (toyState [] 2 2 (take 3 toySchedule)) = Some st'
    ∧ jobs st' = ["https://shop.adidas.jp/products/i/"].
Proof.
  destruct (@channel_sends_never_block (toyRenderer [] [] []) 2
              (mkToyPage "" 0) (sampleLinks 2) (take 3 toySchedule)
              (toyState [] 2 2 (take 3 toySchedule)))
    as [Hfill _]; [vm_compute; reflexivity|].
  destruct (Hfill 0 "https://shop.adidas.jp/products/i/"
              ["https://shop.adidas.jp/products/ii/"])
    as (st' & Hstep & Hjobs & _); [vm_compute; reflexivity|vm_compute; lia|].
  exists st'. split; [exact Hstep|exact Hjobs].
Defined.




Lemma collected_records_match_successes_witness :
  (∀ product, product ∈ finalProducts (toyState [] 2 2 toySchedule) →
     ProductID product = productID (URL product)
     ∧ URL product ∈ succeeded (log (toyState [] 2 2 toySchedule))
     ∧ URL product ∈ take productTarget (sampleLinks 2))
  ∧ ∀ url, url ∈ succeeded (log (toyState [] 2 2 toySchedule)) →
      ∃ product, product ∈ finalProducts (toyState [] 2 2 toySchedule)
                 ∧ URL product = url.
Proof.
  apply (@collected_records_match_successes (toyRenderer [] [] []) 2
           (mkToyPage "" 0) (sampleLinks 2) toySchedule
           (toyState [] 2 2 toySchedule));
    [lia | vm_compute; reflexivity | vm_compute; exact I].
Defined.

(** ** [Start], from discovery to the CSV *)

Section StartFacts.
Context `{R : Renderer}.

Lemma first_seen_nil (seen links : list string) :
  first_seen seen links = [] → Forall (λ x, x ∈ seen) links.
Proof.
  induction links as [|x l IH]; simpl; [constructor|].
  destruct (decide (x ∈ seen)); [|done]. intros Hl. constructor; auto.
Qed.

(** The pool [Start] begins with: the duplicate-free links of a listing
    that showed at least one anchor. *)
Lemma Start_begin_pool (c : session) (st0 : pool) :
  Start_begin c = inr st0 →
  ∃ c' raw,
    Run c (discoverActions startURL) [] = (c', raw, None)
    ∧ raw ≠ [] ∧ st0 = pool_init c' (first_seen [] raw).
Proof.
  unfold Start_begin, discoverProductLinks.
  destruct (Run c (discoverActions startURL) []) as [[c' raw] [err|]];
    [done|].
  rewrite dedupLoop_first_seen
    by (intros x; rewrite lookup_empty, elem_of_nil; simpl; split; [done|tauto]).
  simpl. destruct (Nat.eqb_spec (length (first_seen [] raw)) 0) as [|Hne];
    [done|].
  intros [= <-]. exists c', raw. split; [done|]. split; [|done].
  intros ->. by apply Hne.
Qed.

(** X6: [Start] stops with [log.Fatalf] before any worker is started
    exactly when the run over the listing page fails or yields no
    anchor at all. *)
Theorem Start_is_fatal_iff_nothing_discovered (c : session) :
  (∃ msg, Start_begin c = inl msg)
  ↔ (∃ c' raw err,
       Run c (discoverActions startURL) [] = (c', raw, Some err))
    ∨ (∃ c', Run c (discoverActions startURL) [] = (c', [], None)).
Proof.
  unfold Start_begin, discoverProductLinks.
  destruct (Run c (discoverActions startURL) []) as [[c' raw] [err|]].
  { split; [|by eauto]. intros _. left. eauto. }
  rewrite dedupLoop_first_seen
    by (intros x; rewrite lookup_empty, elem_of_nil; simpl; split; [done|tauto]).
  simpl. destruct (Nat.eqb_spec (length (first_seen [] raw)) 0) as [Hz|Hne].
  - apply nil_length_inv, first_seen_nil in Hz.
    destruct raw as [|x raw].
    + split; [|by eauto]. intros _. right. eauto.
    + apply Forall_cons in Hz as [Hx _]. by apply elem_of_nil in Hx.
  - split; [by intros [? ?]|].
    intros [(? & ? & ? & ?)|[? [= _ ->]]]; [done|]. by destruct Hne.
Qed.

Lemma csvRow_inj : Inj (=) (=) csvRow.
Proof. intros [] []. unfold csvRow. simpl. intros [= ]. by subst. Qed.

(** X7: when [Start] gets past discovery and its pool runs to the end,
    the CSV gets the header and one row for each job logged as a success,
    at most 250 of them; no two data rows are equal, each has a cell for
    every column, and its [URL] and [ProductID] cells hold a discovered
    link and the identifier derived from it. *)
Theorem Start_writes_one_row_per_success (W : nat) (c : session)
    (st0 st : pool) (sched : list thread) (rows : list (list string)) :
  1 ≤ W →
  Start_begin c = inr st0 →
  run W sched st0 = Some st →
  Start_csv st = Some rows →
  rows !! 0 = Some csvHeaders
  ∧ length rows = S (length (succeeded (log st)))
  ∧ length rows ≤ S productTarget
  ∧ NoDup (drop 1 rows)
  ∧ ∀ i row,
      rows !! S i = Some row →
      length row = length csvHeaders
      ∧ ∃ url, url ∈ productLinks st0
               ∧ column "URL" csvHeaders row = Some url
               ∧ column "ProductID" csvHeaders row = Some (productID url).
Proof.
  intros HW (c' & raw & _ & _ & ->)%Start_begin_pool Hrun.
  set (links := first_seen [] raw) in *.
  pose proof (first_seen_NoDup raw []) as Hnd. fold links in Hnd.
  pose proof (reachable_inv _ _ _ _ _ Hrun) as Hinv.
  pose proof (run_productLinks _ _ _ _ Hrun) as Hlinks. simpl in Hlinks.
  pose proof (jobs_NoDup _ _ Hinv) as Hnd'. rewrite Hlinks in Hnd'.
  specialize (Hnd' Hnd).
  assert (Forall (λ product, ProductID product = productID (URL product))
            (records st)) as Hrec.
  { eapply (records_Forall _ W sched); [|apply pool_init_inv| |exact Hrun].
    - intros tc url tc' product [-> ->]%scrape_success_URL. done.
    - constructor. }
  unfold Start_csv, records, finalProducts in *.
  destruct (main st) as [| | | | | |fp] eqn:Hmain; try done.
  intros [= <-].
  destruct (done_summary W st fp HW Hinv Hmain) as (_ & _ & Hfin & Hfp).
  rewrite Hlinks in Hfin. apply Forall_app in Hrec as [Hrec _].
  assert (length fp = length (succeeded (log st))) as Hlen.
  { by rewrite <- Hfp, length_fmap. }
  unfold writeCSV. simpl. rewrite length_fmap, drop_0.
  split; [done|]. split; [by rewrite Hlen|]. split; [|split].
  - pose proof (succeeded_le_finished (log st)) as Hle.
    rewrite Hfin, length_take in Hle. lia.
  - apply (@NoDup_fmap_2 _ _ csvRow csvRow_inj).
    apply (NoDup_fmap_1 URL). rewrite Hfp.
    rewrite !app_assoc in Hnd'. by apply NoDup_app in Hnd' as (_ & _ & ?).
  - intros i row. rewrite list_lookup_fmap.
    destruct (fp !! i) as [product|] eqn:Hi; [|done]. intros [= <-].
    split; [done|]. exists (URL product).
    pose proof (Forall_lookup_1 _ _ _ _ Hrec Hi) as Hid. simpl in Hid.
    split; [|split; [by destruct product|rewrite <- Hid; by destruct product]].
    assert (URL product ∈ take productTarget links) as Hin.
    { rewrite <- Hfin, (finished_split (log st)), <- Hfp.
      apply elem_of_app. right.
      by apply list_elem_of_fmap_2, list_elem_of_lookup_2 with i. }
    by apply elem_of_take in Hin as (j & Hj & _);
      apply list_elem_of_lookup_2 in Hj.
Qed.

End StartFacts.

(** The listing with three anchors, one a duplicate: header and two rows. *)
Lemma Start_writes_one_row_per_success_witness :
  ∃ rows, Start_csv listingEnd = Some rows ∧ length rows = 3.
Proof.
  exists (default [] (Start_csv listingEnd)).
  split; [vm_compute; reflexivity|].
  destruct (@Start_writes_one_row_per_success listingRenderer 2
              (mkToyPage "" 0) listingStart listingEnd toySchedule
              (default [] (Start_csv listingEnd)))
    as (_ & Hlen & _);
    [lia | vm_compute; reflexivity | vm_compute; reflexivity
    | vm_compute; reflexivity |].
  rewrite Hlen. vm_compute. reflexivity.
Defined.


#[local] Arguments String.append !_ _ / : simpl nomatch.

(** ** Errors of [scrapeProductPage] *)

Section ScrapeErrors.
Context `{R : Renderer}.



End ScrapeErrors.


(** ** More about the identifier *)

Lemma Contains_sep_nil (c : ascii) : Contains "" (String c "") = false.
Proof. done. Qed.

Lemma Contains_sep_cons (c d : ascii) (s : string) :
  Contains (String d s) (String c "")
  = Ascii.eqb c d || Contains s (String c "").
Proof.
  simpl. destruct (ascii_dec c d) as [->|Hne].
  - rewrite Ascii.eqb_refl. by destruct s.
  - apply Ascii.eqb_neq in Hne. by rewrite Hne.
Qed.

(** No segment of a split holds the separator. *)
Lemma Split_no_sep (c : ascii) (s : string) :
  Forall (λ seg, Contains seg (String c "") = false) (Split s c).
Proof.
  induction s as [|d s IH]; simpl; [by repeat constructor|].
  destruct (Ascii.eqb_spec d c) as [->|Hd]; [by constructor|].
  destruct (Split s c) as [|seg segs] eqn:E; [by apply Split_nonempty in E|].
  apply Forall_cons in IH as [Hseg Hsegs]. constructor; [|done].
  rewrite Contains_sep_cons, Hseg.
  destruct (Ascii.eqb_spec c d); by subst.
Qed.

Lemma Split_all_empty (c : ascii) (s : string) :
  Forall (λ seg, seg = "") (Split s c) → ∃ k, s = seps c k.
Proof.
  induction s as [|d s IH]; simpl; [by exists 0|].
  destruct (Ascii.eqb_spec d c) as [->|Hd].
  - intros [_ [k ->]%IH]%Forall_cons. by exists (S k).
  - destruct (Split s c); by intros [? _]%Forall_cons.
Qed.

Lemma segments_seps (k : nat) (s : string) :
  segments (seps "/" k +:+ s) = segments s.
Proof.
  induction k as [|k IH]; [done|]. unfold segments in *. simpl.
  by rewrite filter_cons_False by auto.
Qed.

Lemma segments_app_seps (s : string) (k : nat) :
  segments (s +:+ seps "/" k) = segments s.
Proof.
  unfold segments.
  by rewrite Split_app_seps, filter_app, segments_replicate, app_nil_r.
Qed.

Lemma segments_nonempty (s seg : string) : seg ∈ segments s → seg ≠ "".
Proof. unfold segments. by intros [? _]%list_elem_of_filter. Qed.

(** X9: the identifier never holds a slash, and when it is not empty it
    is one of the segments of the URL text. *)
Theorem productID_is_a_segment_without_slash (url : string) :
  Contains (productID url) "/" = false
  ∧ (productID url = "" ∨ productID url ∈ Split url "/").
Proof.
  rewrite productID_last_segment. unfold last_nonempty_segment.
  fold (segments url).
  destruct (last (segments url)) as [seg|] eqn:Hlast; simpl; [|auto].
  apply last_Some_elem_of in Hlast. unfold segments in Hlast.
  apply list_elem_of_filter in Hlast as [_ Hin]. split; [|by right].
  pose proof (Split_no_sep "/" url) as Hall.
  rewrite Forall_forall in Hall. by apply Hall.
Qed.

(** X10: the identifier is empty exactly for a URL text made of slashes
    only (the empty text included). *)
Theorem productID_empty_iff_only_slashes (url : string) :
  productID url = "" ↔ ∃ k, url = seps "/" k.
Proof.
  rewrite productID_last_segment. unfold last_nonempty_segment.
  fold (segments url). split.
  - intros Hid. apply (Split_all_empty "/").
    destruct (last (segments url)) as [seg|] eqn:Hlast; simpl in Hid.
    + apply last_Some_elem_of, segments_nonempty in Hlast. by subst.
    + apply last_None in Hlast. unfold segments in Hlast.
      apply Forall_forall. intros seg Hin.
      destruct (decide (seg = "")) as [|Hne]; [done|].
      assert (seg ∈ filter (λ seg : string, seg ≠ "") (Split url "/")) as Hf
        by by apply list_elem_of_filter.
      rewrite Hlast in Hf. by apply elem_of_nil in Hf.
  - intros [k ->].
    replace (seps "/" k) with ("" +:+ seps "/" k) by done.
    by rewrite segments_app_seps.
Qed.

(** X11: slashes in front of the URL text and behind it, however many,
    do not change the identifier. *)
Theorem productID_ignores_surrounding_slashes (url : string) (k m : nat) :
  productID (seps "/" k +:+ url +:+ seps "/" m) = productID url.
Proof.
  rewrite !productID_last_segment. unfold last_nonempty_segment.
  fold (segments (seps "/" k +:+ url +:+ seps "/" m)) (segments url).
  by rewrite segments_seps, segments_app_seps.
Qed.

(** ** More about the deduplication loop *)

Lemma first_seen_fixed (links : list string) :
  ∀ seen, NoDup links → (∀ x, x ∈ links → x ∉ seen) →
          first_seen seen links = links.
Proof.
  induction links as [|a l IH]; intros seen Hnd Hdis; simpl; [done|].
  apply NoDup_cons in Hnd as [Ha Hnd].
  rewrite decide_False by (apply Hdis; by left). f_equal.
  apply IH; [done|]. intros x Hx.
  rewrite elem_of_app, list_elem_of_singleton.
  intros [Hs| ->]; [|done]. apply (Hdis x); [by right|done].
Qed.

Lemma first_seen_sublist (links : list string) :
  ∀ seen, first_seen seen links `sublist_of` links.
Proof.
  induction links as [|a l IH]; intros seen; simpl; [done|].
  destruct (decide (a ∈ seen)).
  - by apply sublist_cons.
  - by apply sublist_skip.
Qed.

Lemma dedupLoop_from_empty (links : list string) :
  dedupLoop links ∅ [] = first_seen [] links.
Proof.
  rewrite dedupLoop_first_seen; [done|].
  intros x. rewrite lookup_empty, elem_of_nil. simpl. split; [done|tauto].
Qed.

(** X12: a list of links that has no duplicate comes out of the loop
    unchanged. *)
Theorem dedupLoop_keeps_duplicate_free_list (links : list string) :
  NoDup links → dedupLoop links ∅ [] = links.
Proof.
  intros Hnd. rewrite dedupLoop_from_empty.
  apply first_seen_fixed; [done|]. intros x _. apply not_elem_of_nil.
Qed.

Lemma dedupLoop_keeps_duplicate_free_list_witness :
  dedupLoop (sampleLinks 3) ∅ [] = sampleLinks 3.
Proof.
  apply dedupLoop_keeps_duplicate_free_list.
  apply (bool_decide_unpack (NoDup (sampleLinks 3))). vm_compute. exact I.
Defined.

(** X13: what the loop returns is the anchor list with some entries
    left out, in the same order; it is never longer, it keeps the first
    anchor, and it is empty only for an empty anchor list. *)
Theorem dedupLoop_is_a_sublist (links : list string) :
  dedupLoop links ∅ [] `sublist_of` links
  ∧ length (dedupLoop links ∅ []) ≤ length links
  ∧ head (dedupLoop links ∅ []) = head links
  ∧ (dedupLoop links ∅ [] = [] ↔ links = []).
Proof.
  rewrite dedupLoop_from_empty.
  pose proof (first_seen_sublist links []) as Hsub.
  split; [done|]. split; [by apply sublist_length|].
  destruct links as [|a l]; [done|]. simpl.
  destruct (decide (a ∈ [])) as [Hin|_]; [by apply elem_of_nil in Hin|].
  done.
Qed.

(** ** More about [writeCSV] *)



#[local] Arguments String.append !_ _ / : simpl nomatch.

(** ** More about the remote path: the rows *)

Section RemoteRows.
Context `{H : ZenRows.Host}.

Lemma orNA_nonempty (s : string) : ZenRows.orNA s ≠ "".
Proof.
  unfold ZenRows.orNA. destruct (String.eqb_spec s ""); [done|done].
Qed.


(** X16: no cell of the columns [ID], [URL], [ProductName], [Category],
    [ImageURL], [AvailableSizes], [SizeDetails], [Description] and
    [Keywords] is ever empty: where the capture has nothing, the row
    says [N/A]. *)
Theorem remote_row_cells_are_never_empty (bc : string)
    (product : ZenRows.ProductDetails ZenRows.float64) (name : string) :
  name ∈ [ "ID"; "URL"; "ProductName"; "Category"; "ImageURL";
           "AvailableSizes"; "SizeDetails"; "Description"; "Keywords" ] →
  ∃ cell,
    column name ZenRows.header (ZenRows.productRow bc product) = Some cell
    ∧ cell ≠ "".
Proof.
  intros Hname. repeat (apply elem_of_cons in Hname as [->|Hname]);
    [..|by apply elem_of_nil in Hname];
    (eexists; split; [reflexivity|]); try apply orNA_nonempty.
  simpl. destruct (HasPrefix (ZenRows.PLink product) "http") eqn:Hp; [|done].
  simpl. intros Hl. by rewrite Hl in Hp.
Qed.

(** X17: [ProcessJSONAndWriteToCSV] writes a CSV only when the capture
    has at least one product and nothing failed; the file then has the
    header and one row for each product, every record with the eleven
    cells of the header, and each row's [Breadcrumbs] cell is the same
    trail: the texts of the breadcrumbs joined by [ > ]. *)
Theorem ProcessJSON_rows (jsonFileName : string)
    (rows : list (list string)) (err : option ZenRows.processError) :
  ZenRows.ProcessJSONAndWriteToCSV jsonFileName = (Some rows, err) →
  err = None
  ∧ ∃ products breadcrumbs,
      ZenRows.getProductDataFromFile jsonFileName
      = (products, breadcrumbs, None)
      ∧ products ≠ []
      ∧ length rows = S (length products)
      ∧ Forall (λ record, length record = 11) rows
      ∧ ∀ i row,
          rows !! S i = Some row →
          column "Breadcrumbs" ZenRows.header row
          = Some (Join (ZenRows.Text <$> breadcrumbs) " > ").
Proof.
  unfold ZenRows.ProcessJSONAndWriteToCSV.
  destruct (ZenRows.getProductDataFromFile jsonFileName)
    as [[products breadcrumbs] [e|]]; [done|].
  destruct (Nat.eqb_spec (length products) 0) as [|Hne]; [done|].
  destruct (ZenRows.MkdirAll "csv"); [done|].
  destruct (ZenRows.Create "csv/products.csv"); [done|].
  intros [= <- <-]. split; [done|]. exists products, breadcrumbs.
  split; [done|]. split; [by destruct products|].
  simpl. rewrite length_fmap. split; [done|]. split.
  - constructor; [done|]. by apply Forall_fmap, Forall_true.
  - intros i row. rewrite list_lookup_fmap.
    destruct (products !! i) as [product|]; [|done]. intros [= <-].
    simpl. f_equal. unfold ZenRows.breadcrumbsString.
    by destruct breadcrumbs.
Qed.

(** X18: [getProductDataFromFile] never returns data together with an
    error: with an error both slices are nil; and a file that cannot be
    read, or that does not decode, gives an error whatever else holds. *)
Theorem getProductDataFromFile_error_has_no_data (filename : string) :
  (∀ products breadcrumbs err,
     ZenRows.getProductDataFromFile filename
     = (products, breadcrumbs, Some err) →
     products = [] ∧ breadcrumbs = [])
  ∧ (∀ err, ZenRows.ReadFile filename = inl err →
            ZenRows.getProductDataFromFile filename = ([], [], Some err))
  ∧ (∀ rawBody err,
       ZenRows.ReadFile filename = inr rawBody →
       ZenRows.UnmarshalCapture rawBody = inl err →
       ZenRows.getProductDataFromFile filename
       = ([], [], Some (ZenRows.ErrUnmarshalFile err))).
Proof.
  unfold ZenRows.getProductDataFromFile. split; [|split].
  - intros products breadcrumbs err.
    destruct (ZenRows.ReadFile filename) as [e|rawBody];
      [by intros [= <- <- _]|].
    destruct (ZenRows.UnmarshalCapture rawBody) as [e|resp];
      [by intros [= <- <- _]|].
    destruct (ZenRows.scanXHR (ZenRows.XHR resp)) as [[ps bs]|];
      [done|by intros [= <- <- _]].
  - by intros err ->.
  - by intros rawBody err -> ->.
Qed.

(** X19: only the exchanges with the data endpoint count: the scan gives
    the same result when every other exchange is taken out of the list,
    wherever it stood. *)
Theorem scanXHR_ignores_other_exchanges
    (xhr : list ZenRows.XHRResponse) :
  ZenRows.scanXHR xhr
  = ZenRows.scanXHR
      (filter (λ x, Contains (ZenRows.URL x) "recs/api/products" = true)
         xhr).
Proof.
  induction xhr as [|x xhr IH]; [done|]. simpl.
  destruct (Contains (ZenRows.URL x) "recs/api/products") eqn:Hc.
  - rewrite filter_cons_True by done. simpl. rewrite Hc.
    by destruct (ZenRows.UnmarshalRecommendations (ZenRows.Body x)).
  - rewrite filter_cons_False by (by rewrite Hc). done.
Qed.

End RemoteRows.

Lemma remote_row_cells_are_never_empty_witness :
  ∃ cell,
    column "Keywords" ZenRows.header
      (@ZenRows.productRow toyHost "Men" toyDetails) = Some cell
    ∧ cell ≠ "".
Proof.
  apply (@remote_row_cells_are_never_empty toyHost "Men" toyDetails
           "Keywords").
  apply (bool_decide_unpack _). vm_compute. exact I.
Defined.

Lemma ProcessJSON_rows_witness :
  ∃ products breadcrumbs,
    @ZenRows.getProductDataFromFile toyHost "sample.json"
    = (products, breadcrumbs, None)
    ∧ products ≠ []
    ∧ length [ ZenRows.header;
               @ZenRows.productRow toyHost "Men" toyDetails ]
      = S (length products).
Proof.
  destruct (@ProcessJSON_rows toyHost "sample.json"
              [ ZenRows.header;
                @ZenRows.productRow toyHost "Men" toyDetails ] None eq_refl)
    as (_ & products & breadcrumbs & Hget & Hne & Hlen & _).
  exists products, breadcrumbs. split; [exact Hget|]. split; [exact Hne|].
  exact Hlen.
Defined.


(** ** The remote path: [ScrapeAndSaveToJSON] and [main] *)

Section RunFacts.
Context `{H : ZenRows.Host} `{N : ZenRowsRun.Net}.

(** The cases of [ScrapeAndSaveToJSON]. *)
Lemma ScrapeAndSaveToJSON_cases (name : string) (fs fs' : gmap string string)
    (err : option ZenRowsRun.saveError) :
  ZenRowsRun.ScrapeAndSaveToJSON name fs = (fs', err) →
  (fs' = fs ∧ ∃ e, err = Some e ∧ ∀ cause, e ≠ ZenRowsRun.ErrWriteOutput cause)
  ∨ ∃ resp body,
      ZenRowsRun.Do
        (ZenRowsRun.zenRowsURL ZenRowsRun.ZenRowsAPIKey
           ZenRowsRun.AdidasMenURL) = inr resp
      ∧ ZenRowsRun.StatusCode resp = 200
      ∧ ZenRowsRun.ReadAll resp = inr body
      ∧ ((err = None ∧ fs' = <[name := body]> fs)
         ∨ ∃ cause n,
             err = Some (ZenRowsRun.ErrWriteOutput cause)
             ∧ fs' = <[name := String.substring 0 n body]> fs).
Proof.
  unfold ZenRowsRun.ScrapeAndSaveToJSON.
  destruct (ZenRowsRun.NewRequest _); [intros [= <- <-]; left; eauto|].
  destruct (ZenRowsRun.Do _) as [e|resp] eqn:Hdo;
    [intros [= <- <-]; left; eauto|].
  destruct (Nat.eqb_spec (ZenRowsRun.StatusCode resp) 200) as [Hst|Hst];
    simpl; [|intros [= <- <-]; left; eauto].
  destruct (ZenRowsRun.ReadAll resp) as [e|body] eqn:Hbody;
    [intros [= <- <-]; left; eauto|].
  destruct (ZenRows.Create name); [intros [= <- <-]; left; eauto|].
  destruct (ZenRowsRun.Write name body) as [n [e|]]; intros [= <- <-];
    right; exists resp, body; repeat split; eauto.
Qed.

(** X20: what [ScrapeAndSaveToJSON] saved is what the next step reads:
    when it returns no error, the answer had status 200, the named file
    holds exactly the body of the answer, opening and reading that file
    gives the body, and no other file has changed. *)
Theorem saved_capture_is_read_back (name : string)
    (fs fs' : gmap string string) :
  ZenRowsRun.ScrapeAndSaveToJSON name fs = (fs', None) →
  ∃ resp body,
    ZenRowsRun.Do
      (ZenRowsRun.zenRowsURL ZenRowsRun.ZenRowsAPIKey
         ZenRowsRun.AdidasMenURL) = inr resp
    ∧ ZenRowsRun.StatusCode resp = 200
    ∧ ZenRowsRun.ReadAll resp = inr body
    ∧ fs' !! name = Some body
    ∧ @ZenRows.ReadFile (ZenRowsRun.hostWith fs') name = inr body
    ∧ ∀ other, other ≠ name → fs' !! other = fs !! other.
Proof.
  intros [(_ & e & [=] & _)
         |(resp & body & Hdo & Hst & Hbody
           & [[_ ->]|(cause & n & [=] & _)])]%ScrapeAndSaveToJSON_cases.
  exists resp, body. repeat split; try done.
  - apply lookup_insert_eq.
  - simpl. by rewrite lookup_insert_eq.
  - intros other Hne. by apply lookup_insert_ne.
Qed.


(** With an error, [ProcessJSONAndWriteToCSV] has written no CSV. *)
Lemma ProcessJSON_error_no_csv `{H' : ZenRows.Host} (name : string)
    (csv : option (list (list string))) (err : ZenRows.processError) :
  ZenRows.ProcessJSONAndWriteToCSV name = (csv, Some err) → csv = None.
Proof.
  unfold ZenRows.ProcessJSONAndWriteToCSV.
  destruct (ZenRows.getProductDataFromFile name)
    as [[products breadcrumbs] [e|]]; [by intros [= <- _]|].
  destruct (length products =? 0); [done|].
  destruct (ZenRows.MkdirAll "csv"); [by intros [= <- _]|].
  destruct (ZenRows.Create "csv/products.csv"); [by intros [= <- _]|done].
Qed.

(** X22: when [main] completes, the capture was fetched and saved, the
    CSV is what [ProcessJSONAndWriteToCSV] made of the saved capture,
    and unless [os.Remove] failed the capture file is gone again, every
    other file being as it was before apart from the capture's name. *)
Theorem main_completed (fs fs' : gmap string string)
    (csv : option (list (list string))) :
  ZenRowsRun.main fs = (fs', csv, ZenRowsRun.Completed) →
  ∃ body,
    ZenRowsRun.ScrapeAndSaveToJSON ZenRowsRun.SampleJSONFile fs
    = (<[ZenRowsRun.SampleJSONFile := body]> fs, None)
    ∧ @ZenRows.ProcessJSONAndWriteToCSV
        (ZenRowsRun.hostWith (<[ZenRowsRun.SampleJSONFile := body]> fs))
        ZenRowsRun.SampleJSONFile = (csv, None)
    ∧ (ZenRowsRun.Remove ZenRowsRun.SampleJSONFile = None →
       fs' !! ZenRowsRun.SampleJSONFile = None)
    ∧ ∀ other, other ≠ ZenRowsRun.SampleJSONFile →
               fs' !! other = fs !! other.
Proof.
  unfold ZenRowsRun.main.
  destruct (ZenRowsRun.ScrapeAndSaveToJSON ZenRowsRun.SampleJSONFile fs)
    as [fs1 [e|]] eqn:Hsave; [done|].
  pose proof Hsave as
    [(_ & e & [=] & _)
    |(resp & body & _ & _ & _
      & [[_ ->]|(cause & n & [=] & _)])]%ScrapeAndSaveToJSON_cases.
  destruct (ZenRows.ProcessJSONAndWriteToCSV ZenRowsRun.SampleJSONFile)
    as [csv1 [e|]] eqn:Hproc; [done|].
  rewrite lookup_insert_eq.
  destruct (ZenRowsRun.Remove ZenRowsRun.SampleJSONFile) eqn:Hrm;
    intros [= <- <-]; exists body; repeat split; try done.
  - intros other Hne. by apply lookup_insert_ne.
  - intros _. apply lookup_delete_eq.
  - intros other Hne. by rewrite lookup_delete_ne, lookup_insert_ne.
Qed.

(** X23: when [main] ends in [log.Fatalf], no CSV was written in this
    run, and either saving failed, or the capture was saved and could
    not be processed: then the capture file is left behind, holding the
    body that was fetched. *)
Theorem main_fatal (fs fs' : gmap string string)
    (csv : option (list (list string))) :
  ZenRowsRun.main fs = (fs', csv, ZenRowsRun.Fatal) →
  csv = None
  ∧ ((∃ err,
        ZenRowsRun.ScrapeAndSaveToJSON ZenRowsRun.SampleJSONFile fs
        = (fs', Some err))
     ∨ ∃ body err,
         ZenRowsRun.ScrapeAndSaveToJSON ZenRowsRun.SampleJSONFile fs
         = (fs', None)
         ∧ fs' !! ZenRowsRun.SampleJSONFile = Some body
         ∧ @ZenRows.ProcessJSONAndWriteToCSV (ZenRowsRun.hostWith fs')
             ZenRowsRun.SampleJSONFile = (None, Some err)).
Proof.
  unfold ZenRowsRun.main.
  destruct (ZenRowsRun.ScrapeAndSaveToJSON ZenRowsRun.SampleJSONFile fs)
    as [fs1 [e|]] eqn:Hsave.
  { intros [= <- <-]. split; [done|]. left. eauto. }
  destruct (@ZenRows.ProcessJSONAndWriteToCSV (ZenRowsRun.hostWith fs1)
              ZenRowsRun.SampleJSONFile) as [csv1 [e|]] eqn:Hproc.
  - intros [= <- <-].
    pose proof (ProcessJSON_error_no_csv _ _ _ Hproc) as ->.
    split; [done|]. right.
    pose proof Hsave as
      [(_ & e' & [=] & _)
      |(resp & body & _ & _ & _
        & [[_ ->]|(cause & n & [=] & _)])]%ScrapeAndSaveToJSON_cases.
    exists body, e. by rewrite lookup_insert_eq.
  - destruct (fs1 !! ZenRowsRun.SampleJSONFile); [|done].
    by destruct (ZenRowsRun.Remove ZenRowsRun.SampleJSONFile).
Qed.

End RunFacts.

(** The capture of the scripted host is fetched, saved and read back. *)
Lemma saved_capture_is_read_back_witness :
  ∃ resp body,
    @ZenRowsRun.Do toyNet
      (ZenRowsRun.zenRowsURL (@ZenRowsRun.ZenRowsAPIKey toyNet)
         ZenRowsRun.AdidasMenURL) = inr resp
    ∧ ZenRowsRun.StatusCode resp = 200
    ∧ ZenRowsRun.ReadAll resp = inr body
    ∧ (<["sample.json" := "capture"]> ∅ : gmap string string)
        !! "sample.json" = Some body
    ∧ @ZenRows.ReadFile
        (@ZenRowsRun.hostWith toyHost (<["sample.json" := "capture"]> ∅))
        "sample.json" = inr body
    ∧ ∀ other, other ≠ "sample.json" →
        (<["sample.json" := "capture"]> ∅ : gmap string string) !! other
        = (∅ : gmap string string) !! other.
Proof.
  apply (@saved_capture_is_read_back toyHost toyNet "sample.json" ∅
           (<["sample.json" := "capture"]> ∅)).
  reflexivity.
Defined.


(** A whole run: the CSV has the header and the row of the one product,
    and the capture file is removed. *)
Lemma main_completed_witness :
  @ZenRowsRun.main toyHost toyNet ∅
  = (∅, Some [ ZenRows.header;
               @ZenRows.productRow toyHost "Men" toyDetails ],
     ZenRowsRun.Completed)
  ∧ ∃ body,
      @ZenRowsRun.ScrapeAndSaveToJSON toyHost toyNet "sample.json" ∅
      = (<["sample.json" := body]> ∅, None).
Proof.
  assert (@ZenRowsRun.main toyHost toyNet ∅
          = (∅, Some [ ZenRows.header;
                       @ZenRows.productRow toyHost "Men" toyDetails ],
             ZenRowsRun.Completed)) as Hmain by (vm_compute; reflexivity).
  split; [exact Hmain|].
  destruct (@main_completed toyHost toyNet ∅ ∅ _ Hmain)
    as (body & Hsave & _).
  exists body. exact Hsave.
Defined.

(** The answer is a page that is no capture: fatal, and the page stays
    in the capture file. *)
Lemma main_fatal_witness :
  @ZenRowsRun.main toyHost toyNetGarbage ∅
  = (<["sample.json" := "<html>"]> ∅, None, ZenRowsRun.Fatal)
  ∧ (None : option (list (list string))) = None.
Proof.
  assert (@ZenRowsRun.main toyHost toyNetGarbage ∅
          = (<["sample.json" := "<html>"]> ∅, None, ZenRowsRun.Fatal))
    as Hmain by (vm_compute; reflexivity).
  split; [exact Hmain|].
  destruct (@main_fatal toyHost toyNetGarbage ∅ _ _ Hmain) as [Hcsv _].
  exact Hcsv.
Defined.


#[local] Opaque productTarget.

(** ** Errors of discovery, and the goroutines apart *)

Section DiscoveryErrors.
Context `{R : Renderer}.

Lemma scrollLoop_fails (j m : nat) :
  ∀ (s sj s' : session) (e : error),
    scrolled j s = Some sj →
    exec sj (EvaluateDiscard scrollScript) = (s', inl e) →
    scrollLoop (j + S m) s = (s', Some e).
Proof.
  induction j as [|j IH]; intros s sj s' e; simpl.
  - intros [= ->] Hfail. by rewrite Hfail.
  - destruct (exec s (EvaluateDiscard scrollScript)) as [s1 [e1|v]];
      [done|]. apply IH.
Qed.

(** X24: when a round of the scroll loop fails, the loop stops at once
    and discovery returns no link and that very error, unwrapped, with
    the session as the failing scroll left it: the anchors are not
    read. *)
Theorem discovery_stops_at_failing_scroll (s s0 sj s' : session)
    (url : string) (j : nat) (e : error) :
  exec s (Navigate url) = (s0, inr ()) →
  j < 5 →
  scrolled j s0 = Some sj →
  exec sj (EvaluateDiscard scrollScript) = (s', inl e) →
  discoverProductLinks s url = (s', ([], Some e)).
Proof.
  intros Hnav Hj Hrounds Hfail.
  pose proof (scrollLoop_fails j (4 - j) _ _ _ _ Hrounds Hfail) as Hloop.
  replace (j + S (4 - j)) with 5 in Hloop by lia.
  unfold discoverProductLinks, discoverActions. cbn [Run].
  by rewrite Hnav, Hloop.
Qed.

(** X25: a step of one goroutine leaves every other started worker as it
    was, program point and session: a worker's session is changed by
    that worker's own steps only, and [Start] never touches a worker it
    has started. *)
Theorem step_leaves_other_workers_alone (W : nat) (t : thread)
    (st st' : pool) (j : nat) (w : workerState) :
  step W t st = Some st' →
  workers st !! j = Some w →
  t ≠ TWorker j →
  workers st' !! j = Some w.
Proof.
  unfold step. destruct (panicked st); [done|].
  destruct st as [c links pc js jc rs rc n ws lg pn].
  destruct t as [|k]; simpl.
  - intros Hstep Hj _. revert Hstep.
    destruct pc as [i|i [|link rest]| | | |fp|fp]; simpl;
      repeat (match goal with
              | |- context [if ?b then _ else _] => destruct b
              | |- context [match ?l with [] => _ | _ :: _ => _ end] =>
                  destruct l
              end); stepped; simpl; try done.
    by apply lookup_app_l_Some.
  - intros Hstep Hj Hne. assert (k ≠ j) as Hkj by congruence.
    revert Hstep.
    destruct (ws !! k) as [[id wpc0 tc]|]; [|done].
    destruct wpc0; simpl;
      repeat (match goal with
              | |- context [let (_, _) := ?x in _] => destruct x
              | |- context [match ?o with Some _ => _ | None => _ end] =>
                  destruct o
              | |- context [if ?b then _ else _] => destruct b
              | |- context [match ?l with [] => _ | _ :: _ => _ end] =>
                  destruct l
              | |- context [match ?n with 0 => _ | S _ => _ end] =>
                  destruct n
              end); stepped; simpl; try done;
      by rewrite list_lookup_insert_ne.
Qed.

End DiscoveryErrors.

(** The browser crashes in the third round of scrolling. *)
Lemma discovery_stops_at_failing_scroll_witness :
  @discoverProductLinks crashingRenderer (mkToyPage "" 0) startURL
  = (mkToyPage startURL 4, ([], Some "context canceled")).
Proof.
  apply (@discovery_stops_at_failing_scroll crashingRenderer
           (mkToyPage "" 0) (mkToyPage startURL 1) (mkToyPage startURL 3)
           (mkToyPage startURL 4) startURL 2 "context canceled").
  - reflexivity.
  - lia.
  - reflexivity.
  - reflexivity.
Defined.

(** Worker 1 scrapes; worker 2, waiting at its receive, is not touched. *)
Lemma step_leaves_other_workers_alone_witness :
  ∃ st',
    step 2 (TWorker 0) (toyState [] 2 2 (take 8 toySchedule)) = Some st'
    ∧ workers st' !! 1
      = Some (@mkWorker (toyRenderer [] [] []) 2 WRecv (mkToyPage "" 0)).
Proof.
  exists (toyState [] 2 2 (take 8 toySchedule ++ [TWorker 0])).
  assert (step 2 (TWorker 0) (toyState [] 2 2 (take 8 toySchedule))
          = Some (toyState [] 2 2 (take 8 toySchedule ++ [TWorker 0])))
    as Hstep by (vm_compute; reflexivity).
  split; [exact Hstep|].
  apply (@step_leaves_other_workers_alone (toyRenderer [] [] []) 2
           (TWorker 0) (toyState [] 2 2 (take 8 toySchedule)) _ 1 _ Hstep).
  - vm_compute. reflexivity.
  - discriminate.
Defined.
